(** * kubectl-walk: the path navigator and the tree flattener

    A shallow embedding of [findNodeByPath], [getMapValue], [walk] and the
    part of [main] that combines them, over a model of [yaml.Node], together
    with the properties of the flattening engine. *)

From Stdlib Require Import ZArith List String Ascii Bool Lia DecimalString DecimalPos.
Import ListNotations.

Set Warnings "-register-all".

Local Open Scope string_scope.
Local Open Scope Z_scope.

(** ** Go strings

    A Go string is a sequence of bytes, which is what [string] is here.
    The functions below are the ones of packages [strings], [strconv] and
    [fmt] that the program calls, restricted to the separators and verbs
    it calls them with. *)

Module strings.

(** [strings.Split(s, sep)] for a one-byte separator: a string without
    the separator yields the one-element slice holding it, so the empty
    string yields one empty part. *)
Fixpoint Split (s : string) (sep : ascii) : list string :=
  match s with
  | EmptyString => [EmptyString]
  | String c r =>
      if Ascii.eqb c sep then EmptyString :: Split r sep
      else match Split r sep with
           | h :: t => String c h :: t
           | [] => [String c EmptyString]
           end
  end.

(** [strings.Join(elems, sep)]. *)
Fixpoint Join (elems : list string) (sep : string) : string :=
  match elems with
  | [] => EmptyString
  | [e] => e
  | e :: rest => e ++ sep ++ Join rest sep
  end.

(** [strings.Index(s, c)] for a one-byte needle: the position of its
    first occurrence, or [-1]. *)
Fixpoint Index (s : string) (c : ascii) : Z :=
  match s with
  | EmptyString => -1
  | String a r =>
      if Ascii.eqb a c then 0
      else let i := Index r c in if i <? 0 then -1 else i + 1
  end.

(** [strings.Contains(s, c)] for a one-byte needle. *)
Definition Contains (s : string) (c : ascii) : bool := 0 <=? Index s c.

End strings.

(** The slice expression [s[lo:hi]]: Go panics unless
    [0 <= lo <= hi <= len(s)], which is [None] here. *)
Definition slice (s : string) (lo hi : Z) : option string :=
  if (0 <=? lo) && (lo <=? hi) && (hi <=? Z.of_nat (String.length s))
  then Some (substring (Z.to_nat lo) (Z.to_nat (hi - lo)) s)
  else None.

Module strconv.

Definition maxInt : Z := 9223372036854775807.
Definition minInt : Z := -9223372036854775808.

Definition digit (c : ascii) : option Z :=
  let n := Z.of_nat (nat_of_ascii c) in
  if (48 <=? n) && (n <=? 57) then Some (n - 48) else None.

Definition maxUint64 : Z := 18446744073709551615.

(** [maxUint64/10 + 1], above which one more digit overflows. *)
Definition cutoff : Z := 1844674407370955162.

(** What the loop over the digits ends with. *)
Inductive parsed : Set :=
| Value (n : Z)
| SyntaxError
| RangeError.

(** The loop of [ParseUint] in base 10 over the bytes, with the value so
    far: a byte that is not a digit is a syntax error, a value that no
    longer fits 64 bits is a range error, whichever comes first. *)
Fixpoint digits (s : string) (n : Z) : parsed :=
  match s with
  | EmptyString => Value n
  | String c r =>
      match digit c with
      | None => SyntaxError
      | Some d =>
          if cutoff <=? n then RangeError
          else if maxUint64 <? n * 10 + d then RangeError
          else digits r (n * 10 + d)
      end
  end.

(** [strconv.Atoi]: an optional sign and at least one decimal digit.
    The value and the error are returned as Go returns them: 0 with a
    syntax error, the nearest of [minInt] and [maxInt] with a range
    error. *)
Definition Atoi (s : string) : Z * bool :=
  let body (neg : bool) (r : string) :=
    match r with
    | EmptyString => (0, true)
    | _ => match digits r 0 with
           | SyntaxError => (0, true)
           | RangeError => if neg then (minInt, true) else (maxInt, true)
           | Value un =>
               if neg then
                 if - minInt <? un then (minInt, true) else (- un, false)
               else
                 if maxInt <? un then (maxInt, true) else (un, false)
           end
    end in
  match s with
  | EmptyString => (0, true)
  | String "-" r => body true r
  | String "+" r => body false r
  | _ => body false s
  end.

End strconv.

Module fmt.

(** The verb [%d] on an [int]. *)
Definition d (n : Z) : string := NilZero.string_of_int (Z.to_int n).

End fmt.

(** The bytes written for the escapes ["\n"] and ["\b"]. *)
Definition LF : string := String (ascii_of_nat 10) EmptyString.
Definition BS : string := String (ascii_of_nat 8) EmptyString.

(** ** The document tree of gopkg.in/yaml.v3 *)

Module yaml.

Inductive Kind : Set :=
| DocumentNode | SequenceNode | MappingNode | ScalarNode | AliasNode.

Definition Kind_eqb (a b : Kind) : bool :=
  match a, b with
  | DocumentNode, DocumentNode | SequenceNode, SequenceNode
  | MappingNode, MappingNode | ScalarNode, ScalarNode
  | AliasNode, AliasNode => true
  | _, _ => false
  end.

(** The fields of [yaml.Node] the program reads. The [Content] of a
    mapping node alternates key nodes and value nodes. *)
Inductive Node : Type :=
  mkNode { Kind_of : Kind; Value : string; Content : list Node }.

End yaml.

Abbreviation Node := yaml.Node.
Abbreviation Value := yaml.Value.
Abbreviation Content := yaml.Content.
Abbreviation Kind_of := yaml.Kind_of.

(** ** Outcomes

    A call either returns or panics (an index or a slice bound out of
    range). An [error] is the message that [fmt.Errorf] formats. *)

Inductive run (A : Type) : Type :=
| Done (a : A)
| Panicked.
Arguments Done {A} a.
Arguments Panicked {A}.

Definition error : Type := string.

(** What [findNodeByPath] returns, a node pointer and an error: the
    node with a nil error, or nil with the error. *)
Inductive found : Type :=
| Found (n : Node)
| Failed (err : error).

Definition bind {A B : Type} (m : run A) (k : A -> run B) : run B :=
  match m with
  | Done a => k a
  | Panicked => Panicked
  end.

Notation "x <- m ;; k" := (bind m (fun x => k))
  (at level 61, m at next level, right associativity).

(** ** Navigation *)

(** The message of the error for an index that is out of range,
    [Errorf("index [%d] out of range for %s", index, name)]. *)
Definition out_of_range (index : Z) (name : string) : error :=
  "index [" ++ fmt.d index ++ "] out of range for " ++ name.

(** The loop of [getMapValue] over [node.Content], two nodes at a time;
    [None] is the nil it returns when no key matches. Reading
    [Content[i+1]] past the end panics. *)
Fixpoint getMapValue_loop (content : list Node) (key : string)
  : run (option Node) :=
  match content with
  | [] => Done None
  | keyNode :: rest =>
      if String.eqb (Value keyNode) key then
        match rest with
        | valueNode :: _ => Done (Some valueNode)
        | [] => Panicked
        end
      else
        match rest with
        | _ :: rest' => getMapValue_loop rest' key
        | [] => Done None
        end
  end.

Definition getMapValue (node : Node) (key : string) : run (option Node) :=
  if negb (yaml.Kind_eqb (Kind_of node) yaml.MappingNode) then Done None
  else getMapValue_loop (Content node) key.

(** The element [s[i]] of a slice: out of range panics. *)
Definition at_index {A : Type} (s : list A) (i : Z) : run A :=
  if i <? 0 then Panicked
  else match nth_error s (Z.to_nat i) with
       | Some a => Done a
       | None => Panicked
       end.

(** One iteration of the loop of [findNodeByPath] over the parts. *)
Definition findNodeByPath_part (entrypoint : string) (current : Node)
  (part : string) : run found :=
  if strings.Contains part "[" then
    match slice part 0 (strings.Index part "[") with
    | None => Panicked
    | Some name =>
        match slice part (strings.Index part "[" + 1) (strings.Index part "]") with
        | None => Panicked
        | Some indexString =>
            let index := fst (strconv.Atoi indexString) in
            child <- getMapValue current name ;;
            match child with
            | None => Done (Failed ("key " ++ name ++ " not found"))
            | Some child =>
                if negb (yaml.Kind_eqb (Kind_of child) yaml.SequenceNode)
                   || (Z.of_nat (List.length (Content child)) <=? index)
                then Done (Failed (out_of_range index name))
                else
                  item <- at_index (Content child) index ;;
                  Done (Found item)
            end
        end
    end
  else
    next <- getMapValue current part ;;
    match next with
    | None => Done (Failed ("invalid format: " ++ entrypoint))
    | Some next => Done (Found next)
    end.

Fixpoint findNodeByPath_loop (entrypoint : string) (current : Node)
  (parts : list string) : run found :=
  match parts with
  | [] => Done (Found current)
  | part :: parts' =>
      r <- findNodeByPath_part entrypoint current part ;;
      match r with
      | Found next => findNodeByPath_loop entrypoint next parts'
      | Failed err => Done (Failed err)
      end
  end.

Definition findNodeByPath (node : Node) (entrypoint : string) : run found :=
  findNodeByPath_loop entrypoint node (strings.Split entrypoint ".").

(** ** Flattening *)

(** The package-level map [autoGenerated]; a key that is absent reads as
    [false]. *)
Definition autoGenerated_entries : list (string * bool) :=
  [ ("creationTimestamp", true);
    ("resourceVersion", true);
    ("generation", true);
    ("uid", true);
    ("managedFields", true);
    ("selfLink", true);
    ("status", true) ].

Definition autoGenerated (key : string) : bool :=
  match find (fun e => String.eqb (fst e) key) autoGenerated_entries with
  | Some e => snd e
  | None => false
  end.

(** What a call has written to [out], one string per [Fprintf], and
    whether it returned. *)
Definition writes : Type := list string * run unit.

Definition returned (lines : list string) : writes := (lines, Done tt).

Definition and_then (a b : writes) : writes :=
  match snd a with
  | Done _ => ((fst a ++ fst b)%list, snd b)
  | Panicked => a
  end.

(** [nextRem]: a positive budget loses one, a negative one stays. *)
Definition nextRem (remain : Z) : Z :=
  if 0 <? remain then remain - 1 else remain.

(** The three [Fprintf] calls of [walk]. *)
Definition object_line (path : list string) : string :=
  strings.Join path "." ++ ": <object>" ++ LF.
Definition array_line (path : list string) : string :=
  strings.Join path "." ++ ": <array>" ++ LF.
Definition scalar_line (path : list string) (value : string) : string :=
  strings.Join path "." ++ ": " ++ value ++ LF.

(** The path element of a list item, [Sprintf("\b[%d]", i)]. *)
Definition index_token (i : Z) : string := BS ++ "[" ++ fmt.d i ++ "]".

(** [walk], with the flag [pure] (a package-level variable that [walk]
    only reads) as a parameter. *)
Fixpoint walk (pure : bool) (node : Node) (path : list string) (remain : Z)
  {struct node} : writes :=
  match node with
  | yaml.mkNode yaml.MappingNode _ content =>
      if remain =? 0 then returned [object_line path]
      else
        (fix entries (c : list Node) : writes :=
           match c with
           | [] => returned []
           | [_] => ([], Panicked)
           | keyNode :: valueNode :: rest =>
               if pure && autoGenerated (Value keyNode) then entries rest
               else and_then
                      (walk pure valueNode (path ++ [Value keyNode])%list
                         (nextRem remain))
                      (entries rest)
           end) content
  | yaml.mkNode yaml.SequenceNode _ content =>
      if remain =? 0 then returned [array_line path]
      else
        (fix items (i : Z) (c : list Node) : writes :=
           match c with
           | [] => returned []
           | item :: rest =>
               and_then
                 (walk pure item (path ++ [index_token i])%list (nextRem remain))
                 (items (i + 1) rest)
           end) 0 content
  | yaml.mkNode _ value _ => returned [scalar_line path value]
  end.

(** The two loops of [walk] on their own. *)
Fixpoint walk_entries (pure : bool) (path : list string) (rem : Z)
  (c : list Node) : writes :=
  match c with
  | [] => returned []
  | [_] => ([], Panicked)
  | keyNode :: valueNode :: rest =>
      if pure && autoGenerated (Value keyNode)
      then walk_entries pure path rem rest
      else and_then (walk pure valueNode (path ++ [Value keyNode])%list rem)
                    (walk_entries pure path rem rest)
  end.

Fixpoint walk_items (pure : bool) (path : list string) (rem : Z) (i : Z)
  (c : list Node) : writes :=
  match c with
  | [] => returned []
  | item :: rest =>
      and_then (walk pure item (path ++ [index_token i])%list rem)
               (walk_items pure path rem (i + 1) rest)
  end.

(** ** The entry point *)

(** [entryPath] as [main] computes it from the flag [--entry]. *)
Definition entryPath (entry : string) : list string :=
  if String.eqb entry "" then [] else strings.Split entry ".".

(** What [main] has done once the resource is decoded: walked a node, or
    printed the error of [findNodeByPath] and returned. *)
Inductive report : Type :=
| Walked (w : writes)
| Printed (err : error).

(** The end of [main], from [rootNode := yamlRoot.Content[0]] on, with the
    flags [pure], [depth] and [entry] as parameters: [findNodeByPath] is
    called on the document node [yamlRoot]. *)
Definition main_resource (pure : bool) (depth : Z) (entry : string)
  (yamlRoot : Node) : run report :=
  rootNode <- at_index (Content yamlRoot) 0 ;;
  if String.eqb entry "" then
    Done (Walked (walk pure rootNode (entryPath entry) depth))
  else
    r <- findNodeByPath yamlRoot entry ;;
    match r with
    | Failed err => Done (Printed err)
    | Found rootNode => Done (Walked (walk pure rootNode (entryPath entry) depth))
    end.

(** The branch of [main] for the flag [--file]: the root node is walked
    with the entry as the prefix, and nothing is navigated. *)
Definition main_file (pure : bool) (depth : Z) (entry : string)
  (yamlRoot : Node) : run report :=
  rootNode <- at_index (Content yamlRoot) 0 ;;
  Done (Walked (walk pure rootNode (entryPath entry) depth)).

(** The node walked for a given [--entry] when the navigation starts
    from the root node, as in the call [findNodeByPath(rootNode, entry)]
    of main.go: the root node for the empty entry, else the result of
    the [findNodeByPath] above from the root node. (The [findNodeByPath]
    of main.go differs from it in one message, ["key <part> not found"]
    for a missing key without bracket.) *)
Definition resolve (rootNode : Node) (entry : string) : run found :=
  if String.eqb entry "" then Done (Found rootNode)
  else findNodeByPath rootNode entry.

(** ** The data model of the specification *)

(** A decoded document: what the decoder hands to the engine. *)
Inductive DocumentNode : Type :=
| Scalar (text : string)
| Sequence (items : list DocumentNode)
| Mapping (entries : list (string * DocumentNode)).

(** The [yaml.Node] tree of a document, as the decoder of yaml.v3 builds
    it: a mapping holds, for each entry in document order, a scalar node
    for the key followed by the node of the value. *)
Fixpoint encode (t : DocumentNode) : Node :=
  match t with
  | Scalar text => yaml.mkNode yaml.ScalarNode text []
  | Sequence items => yaml.mkNode yaml.SequenceNode "" (map encode items)
  | Mapping entries =>
      yaml.mkNode yaml.MappingNode ""
        ((fix pairs (es : list (string * DocumentNode)) : list Node :=
            match es with
            | [] => []
            | (key, value) :: rest =>
                yaml.mkNode yaml.ScalarNode key [] :: encode value :: pairs rest
            end) entries)
  end.

Fixpoint encode_entries (es : list (string * DocumentNode)) : list Node :=
  match es with
  | [] => []
  | (key, value) :: rest =>
      yaml.mkNode yaml.ScalarNode key [] :: encode value :: encode_entries rest
  end.

(** The document node that [yaml.Unmarshal] fills in: its only child is
    the root of the document. *)
Definition document (t : DocumentNode) : Node :=
  yaml.mkNode yaml.DocumentNode "" [encode t].

Inductive PathSegment : Type :=
| Field (name : string)
| Index (i : nat).

(** The element [walk] appends to its path for a segment. *)
Definition token (seg : PathSegment) : string :=
  match seg with
  | Field name => name
  | Index i => index_token (Z.of_nat i)
  end.

(** The display path of a prefix, as [walk] renders it in each line. *)
Definition render (prefix : list PathSegment) : string :=
  strings.Join (map token prefix) ".".

(** The display path of section 4.4 of the specification: fields joined
    with a dot, an index as [[i]] right after the previous token. *)
Fixpoint render_spec_from (started : bool) (prefix : list PathSegment) : string :=
  match prefix with
  | [] => ""
  | Field name :: rest =>
      (if started then "." else "") ++ name ++ render_spec_from true rest
  | Index i :: rest =>
      "[" ++ fmt.d (Z.of_nat i) ++ "]" ++ render_spec_from true rest
  end.

Definition render_spec (prefix : list PathSegment) : string :=
  render_spec_from false prefix.

(** The scalars of a tree in pre-order, depth first (entries in document
    order, items in index order), each with the segments that lead to it
    from the root of the tree. *)
Fixpoint leaves (t : DocumentNode) : list (list PathSegment * string) :=
  match t with
  | Scalar text => [([], text)]
  | Sequence items =>
      (fix from (i : nat) (l : list DocumentNode) :=
         match l with
         | [] => []
         | item :: rest =>
             map (fun p => (Index i :: fst p, snd p)) (leaves item)
               ++ from (S i) rest
         end) O items
  | Mapping entries =>
      (fix each (es : list (string * DocumentNode)) :=
         match es with
         | [] => []
         | (key, value) :: rest =>
             map (fun p => (Field key :: fst p, snd p)) (leaves value)
               ++ each rest
         end) entries
  end%list.

Fixpoint leaves_items (i : nat) (l : list DocumentNode)
  : list (list PathSegment * string) :=
  match l with
  | [] => []
  | item :: rest =>
      map (fun p => (Index i :: fst p, snd p)) (leaves item)
        ++ leaves_items (S i) rest
  end%list.

Fixpoint leaves_entries (es : list (string * DocumentNode))
  : list (list PathSegment * string) :=
  match es with
  | [] => []
  | (key, value) :: rest =>
      map (fun p => (Field key :: fst p, snd p)) (leaves value)
        ++ leaves_entries rest
  end%list.

(** The number of scalars of a tree. *)
Fixpoint count_scalars (t : DocumentNode) : nat :=
  match t with
  | Scalar _ => 1
  | Sequence items => list_sum (map count_scalars items)
  | Mapping entries =>
      (fix sum (es : list (string * DocumentNode)) : nat :=
         match es with
         | [] => O
         | (_, value) :: rest => count_scalars value + sum rest
         end%nat) entries
  end.

(** The line of a leaf below the prefix [path]. *)
Definition leaf_line (path : list string) (leaf : list PathSegment * string)
  : string :=
  scalar_line (path ++ map token (fst leaf)) (snd leaf).

(** The tree without the entries whose key satisfies [keys], at every
    level. *)
Fixpoint prune (keys : string -> bool) (t : DocumentNode) : DocumentNode :=
  match t with
  | Scalar text => Scalar text
  | Sequence items => Sequence (map (prune keys) items)
  | Mapping entries =>
      Mapping
        ((fix kept (es : list (string * DocumentNode)) :=
            match es with
            | [] => []
            | (key, value) :: rest =>
                if keys key then kept rest
                else (key, prune keys value) :: kept rest
            end) entries)
  end.

Fixpoint prune_entries (keys : string -> bool)
  (es : list (string * DocumentNode)) : list (string * DocumentNode) :=
  match es with
  | [] => []
  | (key, value) :: rest =>
      if keys key then prune_entries keys rest
      else (key, prune keys value) :: prune_entries keys rest
  end.

(** The depth budget of a counter: a negative counter is no limit. *)
Definition depth_of (remain : Z) : option nat :=
  if remain <? 0 then None else Some (Z.to_nat remain).

(** The budget one level down. *)
Definition below (depth : option nat) : option nat :=
  match depth with
  | Some (S d) => Some d
  | _ => depth
  end.

(** The lines of a tree cut at a depth: [None] is no limit; at depth 0 a
    mapping or a sequence is one placeholder line; a level of mapping or
    sequence costs one, a scalar nothing. Entries whose key satisfies
    [keys] are left out before anything else. *)
Fixpoint flatten_spec (keys : string -> bool) (t : DocumentNode)
  (path : list string) (depth : option nat) {struct t} : list string :=
  match t with
  | Scalar text => [scalar_line path text]
  | Sequence items =>
      match depth with
      | Some O => [array_line path]
      | _ =>
          (fix from (i : nat) (l : list DocumentNode) :=
             match l with
             | [] => []
             | item :: rest =>
                 flatten_spec keys item
                   (path ++ [index_token (Z.of_nat i)]) (below depth)
                   ++ from (S i) rest
             end) O items
      end
  | Mapping entries =>
      match depth with
      | Some O => [object_line path]
      | _ =>
          (fix each (es : list (string * DocumentNode)) :=
             match es with
             | [] => []
             | (key, value) :: rest =>
                 if keys key then each rest
                 else flatten_spec keys value (path ++ [key]) (below depth)
                        ++ each rest
             end) entries
      end
  end%list.

Fixpoint flatten_items (keys : string -> bool) (path : list string)
  (depth : option nat) (i : nat) (l : list DocumentNode) : list string :=
  match l with
  | [] => []
  | item :: rest =>
      flatten_spec keys item (path ++ [index_token (Z.of_nat i)]) depth
        ++ flatten_items keys path depth (S i) rest
  end%list.

Fixpoint flatten_entries (keys : string -> bool) (path : list string)
  (depth : option nat) (es : list (string * DocumentNode)) : list string :=
  match es with
  | [] => []
  | (key, value) :: rest =>
      if keys key then flatten_entries keys path depth rest
      else flatten_spec keys value (path ++ [key]) depth
             ++ flatten_entries keys path depth rest
  end%list.

(** The keys that [walk] leaves out under the flag [pure]. *)
Definition pruned (pure : bool) (key : string) : bool :=
  pure && autoGenerated key.

(** ASCII case folding, to compare keys up to case. *)
Definition lower (c : ascii) : ascii :=
  let n := nat_of_ascii c in
  if (65 <=? n)%nat && (n <=? 90)%nat then ascii_of_nat (n + 32) else c.

Fixpoint fold_case (s : string) : string :=
  match s with
  | EmptyString => EmptyString
  | String c r => String (lower c) (fold_case r)
  end.

(** The keys of [autoGenerated]. *)
Definition autoGenerated_keys : list string :=
  ["creationTimestamp"; "resourceVersion"; "generation"; "uid";
   "managedFields"; "selfLink"; "status"].

(** ** The other functions of the program *)

(** The cases of the switch of [resolveKind], in the order of the source:
    the constants of a case and the kind it returns. *)
Definition resolveKind_cases : list (list string * string) :=
  [ (["po"; "pod"; "pods"], "pod");
    (["svc"; "service"; "services"], "service");
    (["cm"; "configmap"; "configmaps"], "configmap");
    (["secret"; "secrets"], "secret");
    (["ns"; "namespace"; "namespaces"], "namespace");
    (["no"; "node"; "nodes"], "node");
    (["ev"; "event"; "events"], "event");
    (["sa"; "serviceaccount"; "serviceaccounts"], "serviceaccount");
    (["ep"; "endpoints"], "endpoints");
    (["sc"; "storageclass"; "storageclasses"], "storageclass");
    (["pv"; "persistentvolume"; "persistentvolumes"], "persistentvolume");
    (["pvc"; "persistentvolumeclaim"; "persistentvolumeclaims"],
     "persistentvolumeclaim");
    (["deploy"; "deployment"; "deployments"], "deployment");
    (["sts"; "statefulset"; "statefulsets"], "statefulset");
    (["ds"; "daemonset"; "daemonsets"], "daemonset");
    (["rs"; "replicaset"; "replicasets"], "replicaset");
    (["job"; "jobs"], "job");
    (["cj"; "cronjob"; "cronjobs"], "cronjob");
    (["ing"; "ingress"; "ingresses"], "ingress");
    (["netpol"; "networkpolicy"; "networkpolicies"], "networkpolicy");
    (["eplice"; "endpointsslice"; "endpointslices"], "endpointsslice");
    (["role"; "roles"], "role");
    (["rb"; "rolebinding"; "rolebindings"], "rolebinding");
    (["cr"; "clusterrole"; "clusterroles"], "clusterrole");
    (["crb"; "clusterrolebinding"; "clusterrolebindings"],
     "clusterrolebinding");
    (["hpa"; "horizontalpodautoscaler"; "horizontalpodautoscalers"],
     "horizontalpodautoscaler") ].

(** [resolveKind]: the kind of the first case that lists the input, the
    input itself by default. *)
Definition resolveKind (input : string) : string :=
  match find (fun c => existsb (String.eqb input) (fst c)) resolveKind_cases with
  | Some c => snd c
  | None => input
  end.

(** The [walk] of main.go, which has neither the counter nor the flag:
    it prints to the standard output, here the lines written. *)
Fixpoint walk_plain (node : Node) (path : list string) {struct node} : writes :=
  match node with
  | yaml.mkNode yaml.MappingNode _ content =>
      (fix entries (c : list Node) : writes :=
         match c with
         | [] => returned []
         | [_] => ([], Panicked)
         | keyNode :: valueNode :: rest =>
             and_then (walk_plain valueNode (path ++ [Value keyNode])%list)
                      (entries rest)
         end) content
  | yaml.mkNode yaml.SequenceNode _ content =>
      (fix items (i : Z) (c : list Node) : writes :=
         match c with
         | [] => returned []
         | item :: rest =>
             and_then (walk_plain item (path ++ [index_token i])%list)
                      (items (i + 1) rest)
         end) 0 content
  | yaml.mkNode _ value _ => returned [scalar_line path value]
  end.

Fixpoint walk_plain_entries (path : list string) (c : list Node) : writes :=
  match c with
  | [] => returned []
  | [_] => ([], Panicked)
  | keyNode :: valueNode :: rest =>
      and_then (walk_plain valueNode (path ++ [Value keyNode])%list)
               (walk_plain_entries path rest)
  end.

Fixpoint walk_plain_items (path : list string) (i : Z) (c : list Node)
  : writes :=
  match c with
  | [] => returned []
  | item :: rest =>
      and_then (walk_plain item (path ++ [index_token i])%list)
               (walk_plain_items path (i + 1) rest)
  end.






(** ** The resource argument of the first command

    The program that takes one argument [kind/name]. [strings.ToLower]
    is a parameter: nothing below depends on what it does to a string. *)

Section ResourceArg.

Variable ToLower : string -> string.

(** The cases of its [resolveKind], which switches on the lowered input
    and returns the input as it is by default. *)
Definition resolveKind_arg_cases : list (list string * string) :=
  [ (["po"; "pod"; "pods"], "pod");
    (["deploy"; "deployment"; "deployments"], "deployment");
    (["svc"; "service"; "services"], "service");
    (["cm"; "configmap"; "configmaps"], "configmap");
    (["ing"; "ingress"; "ingresses"], "configmap") ].

Definition resolveKind_arg (input : string) : string :=
  match find (fun c => existsb (String.eqb (ToLower input)) (fst c))
          resolveKind_arg_cases with
  | Some c => snd c
  | None => input
  end.

(** [parseResourceArg]: the kind, the name and the error it returns. *)
Definition parseResourceArg (arg : string) : string * string * option error :=
  match strings.Split arg "/" with
  | [kind; name] => (resolveKind_arg kind, name, None)
  | _ => ("", "", Some "invalid resource format, expected kind/name")
  end.

End ResourceArg.

(** ** Lookups in a document *)

(** The value of the first entry with the key. *)
Definition first_value (entries : list (string * DocumentNode)) (key : string)
  : option DocumentNode :=
  option_map snd (find (fun e => String.eqb (fst e) key) entries).

(** The node reached from a document by a list of keys. *)
Fixpoint descend (t : DocumentNode) (names : list string)
  : option DocumentNode :=
  match names with
  | [] => Some t
  | name :: rest =>
      match t with
      | Mapping entries =>
          match first_value entries name with
          | Some value => descend value rest
          | None => None
          end
      | _ => None
      end
  end.

(** The number of levels of mappings and sequences of a document. *)
Fixpoint height (t : DocumentNode) : nat :=
  match t with
  | Scalar _ => O
  | Sequence items => S (list_max (map height items))
  | Mapping entries =>
      S ((fix highest (es : list (string * DocumentNode)) : nat :=
            match es with
            | [] => O
            | (_, value) :: rest => Nat.max (height value) (highest rest)
            end) entries)
  end.

Fixpoint height_entries (es : list (string * DocumentNode)) : nat :=
  match es with
  | [] => O
  | (_, value) :: rest => Nat.max (height value) (height_entries rest)
  end.

(** A list obtained from another by dropping elements. *)
Inductive subsequence {A : Type} : list A -> list A -> Prop :=
| subsequence_nil : subsequence [] []
| subsequence_drop x l1 l2 : subsequence l1 l2 -> subsequence l1 (x :: l2)
| subsequence_keep x l1 l2 : subsequence l1 l2 -> subsequence (x :: l1) (x :: l2).



(** What [Atoi] returns for a value without a sign: the value itself
    within the range of [int], else [maxInt] and a range error. *)
Definition in_range (n : Z) : Z * bool :=
  if strconv.maxInt <? n then (strconv.maxInt, true) else (n, false).


(** ** The text of the lines, written out

    What a line holds byte for byte, stated without the formatting of
    [walk]: the elements of the path with a dot between two of them, a
    colon and a space, the value, a line feed (byte 10). The element of
    an index is a backspace (byte 8) and the index in decimal between
    brackets. *)

Definition newline : string := String "010" EmptyString.

Definition backspace : string := String "008" EmptyString.

Definition dotted (elements : list string) : string :=
  String.concat "." elements.

Definition segment_text (seg : PathSegment) : string :=
  match seg with
  | Field name => name
  | Index i => backspace ++ "[" ++ fmt.d (Z.of_nat i) ++ "]"
  end.

(** The line of a leaf below the elements of a prefix. *)
Definition leaf_text (elements : list string)
  (leaf : list PathSegment * string) : string :=
  dotted (elements ++ map segment_text (fst leaf)) ++ ": " ++ snd leaf
    ++ newline.

(** The document cut at a depth: a mapping or a sequence met with no
    depth left becomes the scalar of its placeholder, a level of mapping
    or sequence costs one, a scalar nothing. *)
Fixpoint truncate (t : DocumentNode) (depth : nat) {struct t} : DocumentNode :=
  match t with
  | Scalar text => Scalar text
  | Sequence items =>
      match depth with
      | O => Scalar "<array>"
      | S d => Sequence (map (fun item => truncate item d) items)
      end
  | Mapping entries =>
      match depth with
      | O => Scalar "<object>"
      | S d =>
          Mapping
            ((fix each (es : list (string * DocumentNode)) :=
                match es with
                | [] => []
                | (key, value) :: rest => (key, truncate value d) :: each rest
                end) entries)
      end
  end.

Fixpoint truncate_entries (depth : nat) (es : list (string * DocumentNode))
  : list (string * DocumentNode) :=
  match es with
  | [] => []
  | (key, value) :: rest =>
      (key, truncate value depth) :: truncate_entries depth rest
  end.

(** The document cut at the depth of a counter, whole when there is no
    limit. *)
Definition cut (depth : option nat) (t : DocumentNode) : DocumentNode :=
  match depth with
  | Some d => truncate t d
  | None => t
  end.

(** ** Documents used below *)

Definition containers : DocumentNode :=
  Sequence [Mapping [("name", Scalar "nginx");
                     ("image", Scalar "nginx:latest")]].

Definition pod : DocumentNode :=
  Mapping [("spec", Mapping [("containers",
    Sequence [Mapping [("name", Scalar "nginx");
                       ("image", Scalar "nginx:latest")]])])].

Definition items_xy : DocumentNode :=
  Mapping [("items", Sequence [Scalar "x"; Scalar "y"])].

Definition nested_ab : DocumentNode :=
  Mapping [("a", Mapping [("b", Scalar "1")])].

Definition abc_v : DocumentNode :=
  Mapping [("a", Mapping [("b", Sequence [Mapping [("c", Scalar "v")]])])].

Definition empty_key : DocumentNode :=
  Mapping [("a", Mapping [("", Mapping [("b", Scalar "1")])])].

(** * Properties *)

Example Split_empty : strings.Split "" "." = [""].
Proof. reflexivity. Qed.
Example Split_ab : strings.Split "a..b[0]." "." = ["a"; ""; "b[0]"; ""].
Proof. reflexivity. Qed.
Example Atoi_ex : map strconv.Atoi ["5"; "-1"; "+7"; "abc"; ""; "-"; "99999999999999999999"]
  = [(5, false); (-1, false); (7, false); (0, true); (0, true); (0, true); (strconv.maxInt, true)].
Proof. reflexivity. Qed.
Example Atoi_range_first :
  map strconv.Atoi ["99999999999999999999x"; "-99999999999999999999x";
                    "9223372036854775808"; "-9223372036854775808"; "12x"]
  = [(strconv.maxInt, true); (strconv.minInt, true);
     (strconv.maxInt, true); (strconv.minInt, false); (0, true)].
Proof. reflexivity. Qed.
Example d_ex : map fmt.d [5; -1; 0; 120] = ["5"; "-1"; "0"; "120"].
Proof. reflexivity. Qed.


(** ** Induction on documents *)

Section DocumentNode_induction.

Variable P : DocumentNode -> Prop.
Hypothesis P_Scalar : forall text, P (Scalar text).
Hypothesis P_Sequence : forall items, Forall P items -> P (Sequence items).
Hypothesis P_Mapping :
  forall entries, Forall (fun e => P (snd e)) entries -> P (Mapping entries).

Fixpoint DocumentNode_induction (t : DocumentNode) : P t :=
  match t with
  | Scalar text => P_Scalar text
  | Sequence items =>
      P_Sequence items
        ((fix all (l : list DocumentNode) : Forall P l :=
            match l with
            | [] => Forall_nil P
            | item :: rest =>
                Forall_cons item (DocumentNode_induction item) (all rest)
            end) items)
  | Mapping entries =>
      P_Mapping entries
        ((fix all (es : list (string * DocumentNode))
            : Forall (fun e => P (snd e)) es :=
            match es with
            | [] => Forall_nil _
            | e :: rest =>
                Forall_cons e (DocumentNode_induction (snd e)) (all rest)
            end) entries)
  end.

End DocumentNode_induction.

Lemma pairs_ind (A : Type) (Q : list A -> Prop) :
  Q [] -> (forall a, Q [a]) -> (forall a b l, Q l -> Q (a :: b :: l)) ->
  forall l, Q l.
Proof.
  intros H0 H1 H2.
  assert (both : forall l, Q l /\ forall a, Q (a :: l)).
  { induction l as [|b l [IH1 IH2]]; split; auto. }
  intro l. apply both.
Qed.

(** ** The equations of the definitions

    The loops inside [encode], [walk], [leaves], [prune] and
    [flatten_spec] are the functions declared for them. *)

Lemma encode_Mapping entries :
  encode (Mapping entries)
  = yaml.mkNode yaml.MappingNode "" (encode_entries entries).
Proof. reflexivity. Qed.

Lemma encode_Sequence items :
  encode (Sequence items) = yaml.mkNode yaml.SequenceNode "" (map encode items).
Proof. reflexivity. Qed.

Lemma walk_Mapping pure value content path remain :
  walk pure (yaml.mkNode yaml.MappingNode value content) path remain
  = if remain =? 0 then returned [object_line path]
    else walk_entries pure path (nextRem remain) content.
Proof.
  simpl. destruct (remain =? 0); [reflexivity|].
  induction content as [| a | a b l IH] using pairs_ind; try reflexivity.
  simpl. rewrite IH. reflexivity.
Qed.

Lemma walk_Sequence pure value content path remain :
  walk pure (yaml.mkNode yaml.SequenceNode value content) path remain
  = if remain =? 0 then returned [array_line path]
    else walk_items pure path (nextRem remain) 0 content.
Proof.
  simpl. destruct (remain =? 0); [reflexivity|].
  generalize 0. induction content as [|item rest IH]; intro i; [reflexivity|].
  simpl. rewrite IH. reflexivity.
Qed.

Lemma walk_Scalar pure text path remain :
  walk pure (encode (Scalar text)) path remain
  = returned [scalar_line path text].
Proof. reflexivity. Qed.

Lemma flatten_spec_Sequence keys items path depth :
  flatten_spec keys (Sequence items) path depth
  = match depth with
    | Some O => [array_line path]
    | _ => flatten_items keys path (below depth) O items
    end.
Proof.
  assert (E : forall d i,
    (fix from (i : nat) (l : list DocumentNode) {struct l} : list string :=
       match l with
       | [] => []
       | item :: rest =>
           (flatten_spec keys item (path ++ [index_token (Z.of_nat i)]) d
              ++ from (S i) rest)%list
       end) i items = flatten_items keys path d i items).
  { intro d. induction items as [|item rest IH]; intro i; [reflexivity|].
    simpl. rewrite IH. reflexivity. }
  destruct depth as [[|d]|]; simpl; try rewrite E; reflexivity.
Qed.

Lemma flatten_spec_Mapping keys entries path depth :
  flatten_spec keys (Mapping entries) path depth
  = match depth with
    | Some O => [object_line path]
    | _ => flatten_entries keys path (below depth) entries
    end.
Proof.
  assert (E : forall d,
    (fix each (es : list (string * DocumentNode)) : list string :=
       match es with
       | [] => []
       | (key, value) :: rest =>
           if keys key then each rest
           else (flatten_spec keys value (path ++ [key]) d ++ each rest)%list
       end) entries = flatten_entries keys path d entries).
  { intro d. induction entries as [|[key value] rest IH]; [reflexivity|].
    simpl. rewrite IH. reflexivity. }
  destruct depth as [[|d]|]; simpl; try rewrite E; reflexivity.
Qed.

Lemma leaves_Sequence items : leaves (Sequence items) = leaves_items O items.
Proof. reflexivity. Qed.

Lemma leaves_Mapping entries : leaves (Mapping entries) = leaves_entries entries.
Proof. reflexivity. Qed.

Lemma prune_Mapping keys entries :
  prune keys (Mapping entries) = Mapping (prune_entries keys entries).
Proof.
  simpl. f_equal. induction entries as [|[key value] rest IH]; [reflexivity|].
  simpl. rewrite IH. reflexivity.
Qed.

(** ** [walk] on a decoded document

    On the tree of a document [walk] returns, and what it writes is
    [flatten_spec] with the keys and the depth that its flag and its
    counter stand for. *)

Lemma depth_of_nonzero (A : Type) (remain : Z) (a b : A) :
  remain <> 0 ->
  match depth_of remain with Some O => a | _ => b end = b.
Proof.
  intro H. unfold depth_of. destruct (remain <? 0) eqn:E; [reflexivity|].
  apply Z.ltb_ge in E.
  destruct (Z.to_nat remain) eqn:N; [lia | reflexivity].
Qed.

Lemma below_depth_of (remain : Z) :
  remain <> 0 -> below (depth_of remain) = depth_of (nextRem remain).
Proof.
  intro H. unfold depth_of, nextRem.
  destruct (remain <? 0) eqn:E.
  - apply Z.ltb_lt in E. replace (0 <? remain) with false by (symmetry; apply Z.ltb_ge; lia).
    rewrite (proj2 (Z.ltb_lt _ _) E). reflexivity.
  - apply Z.ltb_ge in E.
    replace (0 <? remain) with true by (symmetry; apply Z.ltb_lt; lia).
    replace (remain - 1 <? 0) with false by (symmetry; apply Z.ltb_ge; lia).
    replace (Z.to_nat remain) with (S (Z.to_nat (remain - 1))) by lia.
    reflexivity.
Qed.

Lemma and_then_returned (a b : list string) :
  and_then (returned a) (returned b) = returned (a ++ b).
Proof. reflexivity. Qed.

Lemma walk_items_encode pure path rem items :
  Forall (fun t => forall pure path remain,
            walk pure (encode t) path remain
            = returned (flatten_spec (pruned pure) t path (depth_of remain)))
         items ->
  forall i,
    walk_items pure path rem (Z.of_nat i) (map encode items)
    = returned (flatten_items (pruned pure) path (depth_of rem) i items).
Proof.
  induction 1 as [|item rest Hitem _ IH]; intro i; [reflexivity|].
  simpl. rewrite Hitem.
  replace (Z.of_nat i + 1) with (Z.of_nat (S i)) by lia.
  rewrite IH. apply and_then_returned.
Qed.

Lemma walk_entries_encode pure path rem entries :
  Forall (fun e => forall pure path remain,
            walk pure (encode (snd e)) path remain
            = returned (flatten_spec (pruned pure) (snd e) path (depth_of remain)))
         entries ->
  walk_entries pure path rem (encode_entries entries)
  = returned (flatten_entries (pruned pure) path (depth_of rem) entries).
Proof.
  induction 1 as [|[key value] rest Hvalue _ IH]; [reflexivity|].
  simpl in *. fold (pruned pure key).
  destruct (pruned pure key); [exact IH|].
  rewrite Hvalue, IH. apply and_then_returned.
Qed.

Lemma walk_encode (t : DocumentNode) :
  forall pure path remain,
    walk pure (encode t) path remain
    = returned (flatten_spec (pruned pure) t path (depth_of remain)).
Proof.
  induction t as [text | items IH | entries IH] using DocumentNode_induction;
    intros pure path remain.
  - reflexivity.
  - rewrite encode_Sequence, walk_Sequence, flatten_spec_Sequence.
    destruct (Z.eqb_spec remain 0) as [->|Hnz]; [reflexivity|].
    rewrite depth_of_nonzero, below_depth_of by assumption.
    apply (walk_items_encode pure path (nextRem remain) items IH O).
  - rewrite encode_Mapping, walk_Mapping, flatten_spec_Mapping.
    destruct (Z.eqb_spec remain 0) as [->|Hnz]; [reflexivity|].
    rewrite depth_of_nonzero, below_depth_of by assumption.
    apply (walk_entries_encode pure path (nextRem remain) entries IH).
Qed.

(** ** Flattening without a limit and without pruning *)

Lemma leaf_line_cons path seg :
  forall leaf,
    leaf_line path (seg :: fst leaf, snd leaf)
    = leaf_line (path ++ [token seg]) leaf.
Proof.
  intro leaf. unfold leaf_line. simpl. rewrite <- app_assoc. reflexivity.
Qed.

Lemma flatten_unbounded (t : DocumentNode) :
  forall path,
    flatten_spec (pruned false) t path None = map (leaf_line path) (leaves t).
Proof.
  induction t as [text | items IH | entries IH] using DocumentNode_induction;
    intro path.
  - unfold leaf_line. simpl. rewrite app_nil_r. reflexivity.
  - rewrite flatten_spec_Sequence, leaves_Sequence. simpl below.
    generalize O.
    induction IH as [|item rest Hitem _ IHrest]; intro i; [reflexivity|].
    simpl. rewrite map_app, map_map, Hitem, IHrest. f_equal.
    apply map_ext. intro leaf. symmetry. apply (leaf_line_cons path (Index i)).
  - rewrite flatten_spec_Mapping, leaves_Mapping. simpl below.
    induction IH as [|[key value] rest Hvalue _ IHrest]; [reflexivity|].
    simpl in *. rewrite map_app, map_map, Hvalue, IHrest. f_equal.
    apply map_ext. intro leaf. symmetry. apply (leaf_line_cons path (Field key)).
Qed.

Lemma leaves_count (t : DocumentNode) :
  List.length (leaves t) = count_scalars t.
Proof.
  induction t as [text | items IH | entries IH] using DocumentNode_induction.
  - reflexivity.
  - rewrite leaves_Sequence. simpl count_scalars. generalize O.
    induction IH as [|item rest Hitem _ IHrest]; intro i; [reflexivity|].
    simpl. rewrite length_app, length_map, Hitem, IHrest. reflexivity.
  - rewrite leaves_Mapping. simpl count_scalars.
    induction IH as [|[key value] rest Hvalue _ IHrest]; [reflexivity|].
    simpl in *. rewrite length_app, length_map, Hvalue, IHrest. reflexivity.
Qed.

Lemma depth_of_negative (remain : Z) : remain < 0 -> depth_of remain = None.
Proof.
  intro H. unfold depth_of. rewrite (proj2 (Z.ltb_lt _ _) H). reflexivity.
Qed.

Lemma Join_concat (elements : list string) (sep : string) :
  strings.Join elements sep = String.concat sep elements.
Proof.
  induction elements as [|a [|b rest] IH]; try reflexivity.
  change (strings.Join (a :: b :: rest) sep)
    with (a ++ sep ++ strings.Join (b :: rest) sep).
  rewrite IH. reflexivity.
Qed.

Lemma token_text (seg : PathSegment) : token seg = segment_text seg.
Proof. destruct seg; reflexivity. Qed.

Lemma leaf_line_text (path : list string) :
  forall leaf, leaf_line path leaf = leaf_text path leaf.
Proof.
  intro leaf. unfold leaf_line, leaf_text, scalar_line, dotted.
  rewrite Join_concat, (map_ext _ _ token_text). reflexivity.
Qed.

(** C1. With a negative counter (no depth limit) and [pure] off, [walk] on
    the tree of any document returns and writes exactly one line per
    scalar of the document, in pre-order depth first (entries in document
    order, items in index order): the line of a scalar is the elements of
    its path with dots between them, a colon and a space, its text and a
    line feed. An empty mapping and an empty sequence write no line. *)
Theorem walk_unbounded_preorder (t : DocumentNode) (path : list string)
  (remain : Z) (unbounded : remain < 0) :
  walk false (encode t) path remain
  = (map (leaf_text path) (leaves t), Done tt)
  /\ List.length (fst (walk false (encode t) path remain)) = count_scalars t
  /\ walk false (encode (Mapping [])) path remain = ([], Done tt)
  /\ walk false (encode (Sequence [])) path remain = ([], Done tt).
Proof.
  assert (E : forall d, walk false (encode d) path remain
                        = (map (leaf_text path) (leaves d), Done tt)).
  { intro d. rewrite walk_encode, depth_of_negative by assumption.
    rewrite flatten_unbounded. unfold returned. f_equal.
    apply map_ext. apply leaf_line_text. }
  repeat split.
  - apply E.
  - rewrite E. simpl. rewrite length_map. apply leaves_count.
  - apply E.
  - apply E.
Qed.

Lemma walk_unbounded_preorder_witness :
  walk false (encode pod) [] (-1)
  = (["spec.containers." ++ backspace ++ "[0].name: nginx" ++ newline;
      "spec.containers." ++ backspace ++ "[0].image: nginx:latest" ++ newline],
     Done tt)
  /\ count_scalars pod = 2%nat.
Proof.
  destruct (walk_unbounded_preorder pod [] (-1)) as [E [N _]]; [lia|].
  split; [exact E | reflexivity].
Defined.

(** ** Depth truncation *)

Lemma depth_of_nonnegative (remain : Z) :
  0 <= remain -> depth_of remain = Some (Z.to_nat remain).
Proof.
  intro H. unfold depth_of. rewrite (proj2 (Z.ltb_ge _ _) H). reflexivity.
Qed.

Lemma nextRem_positive (remain : Z) : 0 < remain -> nextRem remain = remain - 1.
Proof.
  intro H. unfold nextRem. rewrite (proj2 (Z.ltb_lt _ _) H). reflexivity.
Qed.

(** ** Pruning *)

Lemma flatten_entries_prune keys path depth entries :
  Forall (fun e => forall path depth,
            flatten_spec keys (snd e) path depth
            = flatten_spec (pruned false) (prune keys (snd e)) path depth)
         entries ->
  flatten_entries keys path depth entries
  = flatten_entries (pruned false) path depth (prune_entries keys entries).
Proof.
  induction 1 as [|[key value] rest Hvalue _ IH]; [reflexivity|].
  simpl in *. destruct (keys key); [exact IH|].
  simpl. rewrite Hvalue, IH. reflexivity.
Qed.

Lemma flatten_items_prune keys path depth items :
  Forall (fun t => forall path depth,
            flatten_spec keys t path depth
            = flatten_spec (pruned false) (prune keys t) path depth)
         items ->
  forall i,
    flatten_items keys path depth i items
    = flatten_items (pruned false) path depth i (map (prune keys) items).
Proof.
  induction 1 as [|item rest Hitem _ IH]; intro i; [reflexivity|].
  simpl. rewrite Hitem, IH. reflexivity.
Qed.

Lemma flatten_prune keys (t : DocumentNode) :
  forall path depth,
    flatten_spec keys t path depth
    = flatten_spec (pruned false) (prune keys t) path depth.
Proof.
  induction t as [text | items IH | entries IH] using DocumentNode_induction;
    intros path depth.
  - reflexivity.
  - change (prune keys (Sequence items)) with (Sequence (map (prune keys) items)).
    rewrite !flatten_spec_Sequence.
    rewrite (flatten_items_prune keys path (below depth) items IH).
    reflexivity.
  - rewrite prune_Mapping, !flatten_spec_Mapping.
    rewrite (flatten_entries_prune keys path (below depth) entries IH).
    reflexivity.
Qed.

Lemma flatten_entries_skip keys path depth key value before after :
  keys key = true ->
  flatten_entries keys path depth (before ++ (key, value) :: after)
  = flatten_entries keys path depth (before ++ after).
Proof.
  intro Hkey. induction before as [|[k v] before IH]; simpl.
  - rewrite Hkey. reflexivity.
  - rewrite IH. reflexivity.
Qed.

(** C5. With [pure] on, [walk] writes what it writes with [pure] off on
    the document from which every entry keyed by a key of
    [autoGenerated] (["status"] is one) has been removed at every level,
    whatever the counter: an entry keyed ["status"] and all below it
    contribute no line. The key is tested before [walk] is called on the
    value, hence before the counter is looked at: with counter 1 the entry
    [status: {phase: Running}] gives no line, not the placeholder that it
    gives with [pure] off. *)
Theorem walk_prunes_everywhere (t : DocumentNode) (path : list string)
  (remain : Z) :
  autoGenerated "status" = true
  /\ walk true (encode t) path remain
     = walk false (encode (prune autoGenerated t)) path remain
  /\ (forall before value after,
        walk true (encode (Mapping (before ++ ("status", value) :: after)))
          path remain
        = walk true (encode (Mapping (before ++ after))) path remain)
  /\ walk true
       (encode (Mapping [("status", Mapping [("phase", Scalar "Running")])]))
       path 1 = returned []
  /\ walk false
       (encode (Mapping [("status", Mapping [("phase", Scalar "Running")])]))
       path 1 = returned [object_line (path ++ ["status"])].
Proof.
  split; [reflexivity|]. split; [|split; [|split]].
  - rewrite !walk_encode. f_equal.
    exact (flatten_prune (pruned true) t path (depth_of remain)).
  - intros before value after. rewrite !walk_encode, !flatten_spec_Mapping.
    rewrite (flatten_entries_skip (pruned true) path (below (depth_of remain))
               "status" value before after eq_refl).
    reflexivity.
  - reflexivity.
  - reflexivity.
Qed.

(** ** The lines, written out *)

Lemma truncate_Mapping entries d :
  truncate (Mapping entries) (S d) = Mapping (truncate_entries d entries).
Proof.
  simpl. f_equal. induction entries as [|[key value] rest IH]; [reflexivity|].
  simpl. rewrite IH. reflexivity.
Qed.

Lemma flatten_truncate keys (t : DocumentNode) :
  forall path d,
    flatten_spec keys t path (Some d)
    = flatten_spec keys (truncate t d) path None.
Proof.
  induction t as [text | items IH | entries IH] using DocumentNode_induction;
    intros path d.
  - reflexivity.
  - destruct d as [|d]; [reflexivity|].
    change (truncate (Sequence items) (S d))
      with (Sequence (map (fun item => truncate item d) items)).
    rewrite !flatten_spec_Sequence. cbn [below]. generalize O.
    induction IH as [|item rest Hitem _ IHrest]; intro i; [reflexivity|].
    cbn [map flatten_items]. rewrite Hitem, IHrest. reflexivity.
  - destruct d as [|d]; [reflexivity|].
    rewrite truncate_Mapping, !flatten_spec_Mapping. cbn [below].
    induction IH as [|[key value] rest Hvalue _ IHrest]; [reflexivity|].
    cbn [truncate_entries flatten_entries snd] in *.
    rewrite Hvalue, IHrest. reflexivity.
Qed.

Lemma walk_lines (pure : bool) (t : DocumentNode) (path : list string)
  (remain : Z) :
  walk pure (encode t) path remain
  = (map (leaf_text path)
       (leaves (cut (depth_of remain) (prune (pruned pure) t))),
     Done tt).
Proof.
  rewrite walk_encode. unfold returned. f_equal.
  rewrite flatten_prune.
  destruct (depth_of remain) as [d|]; cbn [cut];
    [rewrite flatten_truncate|];
    rewrite flatten_unbounded; apply map_ext; apply leaf_line_text.
Qed.

Lemma prune_nothing (t : DocumentNode) : prune (pruned false) t = t.
Proof.
  induction t as [text | items IH | entries IH] using DocumentNode_induction.
  - reflexivity.
  - change (prune (pruned false) (Sequence items))
      with (Sequence (map (prune (pruned false)) items)).
    f_equal. induction IH as [|item rest Hitem _ IHrest]; [reflexivity|].
    cbn [map]. rewrite Hitem, IHrest. reflexivity.
  - rewrite prune_Mapping. f_equal.
    induction IH as [|[key value] rest Hvalue _ IHrest]; [reflexivity|].
    cbn [prune_entries snd] in *. change (pruned false key) with false.
    cbv iota. rewrite Hvalue, IHrest. reflexivity.
Qed.

(** C4. With a counter [maxDepth >= 0], [walk] writes one line per scalar
    of the document cut at that depth (after the pruned entries are
    left out): a mapping or a sequence reached with the counter at 0
    stands for the single line ["<prefix>: <object>"] or
    ["<prefix>: <array>"] and nothing below it is visited, a level of
    mapping or sequence costs one and a scalar is written whatever the
    counter. With [maxDepth = 0] and the empty prefix a mapping gives
    [": <object>"]; with [maxDepth = 1] the document [{a: {b: 1}}] gives
    ["a: <object>"]. *)
Theorem walk_depth_truncation (pure : bool) (t : DocumentNode)
  (path : list string) (maxDepth : Z) (bounded : 0 <= maxDepth) :
  walk pure (encode t) path maxDepth
  = (map (leaf_text path)
       (leaves (truncate (prune (pruned pure) t) (Z.to_nat maxDepth))),
     Done tt)
  /\ (forall entries,
        walk pure (encode (Mapping entries)) path 0
        = ([dotted path ++ ": <object>" ++ newline], Done tt))
  /\ (forall items,
        walk pure (encode (Sequence items)) path 0
        = ([dotted path ++ ": <array>" ++ newline], Done tt))
  /\ (forall text,
        walk pure (encode (Scalar text)) path maxDepth
        = ([dotted path ++ ": " ++ text ++ newline], Done tt))
  /\ (forall key text, 0 < maxDepth -> pruned pure key = false ->
        walk pure (encode (Mapping [(key, Mapping [("leaf", Scalar text)])]))
          path maxDepth
        = ([if maxDepth =? 1
            then dotted (path ++ [key]) ++ ": <object>" ++ newline
            else dotted (path ++ [key; "leaf"]) ++ ": " ++ text ++ newline],
           Done tt))
  /\ (forall text, 0 < maxDepth ->
        walk pure (encode (Sequence [Sequence [Scalar text]])) path maxDepth
        = ([if maxDepth =? 1
            then dotted (path ++ [backspace ++ "[0]"]) ++ ": <array>" ++ newline
            else dotted (path ++ [backspace ++ "[0]"; backspace ++ "[0]"])
                   ++ ": " ++ text ++ newline],
           Done tt))
  /\ (forall entries,
        walk pure (encode (Mapping entries)) [] 0
        = ([": <object>" ++ newline], Done tt))
  /\ walk pure (encode nested_ab) [] 1 = (["a: <object>" ++ newline], Done tt).
Proof.
  assert (Hpos : forall d : Z, 0 < d ->
            depth_of d = Some (S (Z.to_nat (d - 1)))).
  { intros d Hd. rewrite depth_of_nonnegative by lia. f_equal. lia. }
  split; [|split; [|split; [|split; [|split; [|split; [|split]]]]]].
  - rewrite walk_lines, depth_of_nonnegative by assumption. reflexivity.
  - intro entries. rewrite walk_lines. unfold leaf_text. cbn [depth_of Z.ltb Z.compare cut Z.to_nat].
    rewrite prune_Mapping. cbn [truncate leaves map fst snd].
    rewrite app_nil_r. reflexivity.
  - intro items. rewrite walk_lines. unfold leaf_text. cbn [depth_of Z.ltb Z.compare cut Z.to_nat].
    cbn [prune truncate leaves map fst snd].
    rewrite app_nil_r. reflexivity.
  - intro text. rewrite walk_lines. unfold leaf_text.
    destruct (depth_of maxDepth); cbn [cut prune truncate leaves map fst snd];
      rewrite app_nil_r; reflexivity.
  - intros key text Hd Hkey. rewrite walk_lines, (Hpos _ Hd). cbn [cut].
    rewrite prune_Mapping. cbn [prune_entries]. rewrite Hkey.
    rewrite prune_Mapping. cbn [prune_entries prune].
    replace (pruned pure "leaf") with false by (destruct pure; reflexivity).
    rewrite truncate_Mapping. cbn [truncate_entries].
    destruct (Z.eqb_spec maxDepth 1) as [->|Hne].
    + reflexivity.
    + replace (Z.to_nat (maxDepth - 1)) with (S (Z.to_nat (maxDepth - 2)))
        by lia.
      rewrite truncate_Mapping. unfold leaf_text.
      cbn [truncate_entries truncate leaves map fst snd app segment_text].
      reflexivity.
  - intros text Hd. rewrite walk_lines, (Hpos _ Hd). cbn [cut prune map truncate].
    destruct (Z.eqb_spec maxDepth 1) as [->|Hne].
    + reflexivity.
    + replace (Z.to_nat (maxDepth - 1)) with (S (Z.to_nat (maxDepth - 2)))
        by lia.
      unfold leaf_text.
      cbn [truncate leaves map fst snd app segment_text].
      reflexivity.
  - intro entries. rewrite walk_lines. cbn [depth_of Z.ltb Z.compare cut Z.to_nat].
    rewrite prune_Mapping. reflexivity.
  - destruct pure; reflexivity.
Qed.

Lemma walk_depth_truncation_witness :
  0 <= 1
  /\ walk false (encode nested_ab) [] 1 = (["a: <object>" ++ newline], Done tt)
  /\ walk false (encode (Mapping [("a", Mapping [("leaf", Scalar "1")])])) [] 2
     = (["a.leaf: 1" ++ newline], Done tt).
Proof.
  assert (H : 0 <= 1) by lia.
  destruct (walk_depth_truncation false nested_ab [] 1 H)
    as [_ [_ [_ [_ [_ [_ [_ E]]]]]]].
  assert (H2 : 0 <= 2) by lia.
  destruct (walk_depth_truncation false nested_ab [] 2 H2)
    as [_ [_ [_ [_ [D _]]]]].
  split; [exact H|]. split; [exact E|].
  apply (D "a" "1"); [lia | reflexivity].
Defined.

(** ** The keys of [autoGenerated] *)

Lemma autoGenerated_true_iff (key : string) :
  autoGenerated key = true <-> In key autoGenerated_keys.
Proof.
  cbv [autoGenerated autoGenerated_entries autoGenerated_keys find fst snd In].
  repeat match goal with
         | |- context [String.eqb ?known key] =>
             destruct (String.eqb_spec known key)
         end;
    intuition congruence.
Qed.

Lemma autoGenerated_case_variant (key known : string) :
  In known autoGenerated_keys ->
  fold_case key = fold_case known -> key <> known ->
  autoGenerated key = false.
Proof.
  intros Hknown Hfold Hneq.
  destruct (autoGenerated key) eqn:E; [exfalso | reflexivity].
  apply autoGenerated_true_iff in E.
  cbv [autoGenerated_keys In] in E, Hknown.
  repeat match goal with
         | H : _ \/ _ |- _ => destruct H as [H|H]
         | H : False |- _ => destruct H
         end;
    subst; try (apply Hneq; reflexivity); vm_compute in Hfold; discriminate.
Qed.

Lemma walk_Mapping_cons pure key value rest path remain :
  remain <> 0 -> pruned pure key = false ->
  walk pure (encode (Mapping ((key, value) :: rest))) path remain
  = and_then (walk pure (encode value) (path ++ [key]) (nextRem remain))
             (walk pure (encode (Mapping rest)) path remain).
Proof.
  intros Hnz Hkey. rewrite !encode_Mapping, !walk_Mapping.
  destruct (Z.eqb_spec remain 0); [contradiction|].
  simpl. fold (pruned pure key). rewrite Hkey. reflexivity.
Qed.

Lemma depth_of_zero (remain : Z) : depth_of remain = Some O -> remain = 0.
Proof.
  unfold depth_of. destruct (Z.ltb_spec remain 0); [discriminate|].
  intro E. injection E as E. lia.
Qed.

Lemma walk_Mapping_cons_lines pure key value rest path remain :
  remain <> 0 -> pruned pure key = false ->
  walk pure (encode (Mapping ((key, value) :: rest))) path remain
  = ((map (leaf_text (path ++ [key]))
        (leaves (cut (depth_of (nextRem remain)) (prune (pruned pure) value)))
        ++ fst (walk pure (encode (Mapping rest)) path remain))%list,
     Done tt).
Proof.
  intros Hnz Hkey. rewrite walk_Mapping_cons by assumption.
  rewrite (walk_lines pure value), (walk_lines pure (Mapping rest)).
  reflexivity.
Qed.

(** C10. The keys that [autoGenerated] maps to true are exactly
    creationTimestamp, resourceVersion, generation, uid, managedFields,
    selfLink and status, compared byte for byte: a key that differs from
    one of them only in case (["Status"], ["STATUS"]) is not one of them.
    With [pure] on, the entry of a key that is not one of the seven is
    flattened as any entry: [walk] writes the lines of its value below
    the path extended with the key, then those of the entries that
    follow. With [pure] off it does so for every key, ["status"]
    included. *)
Theorem autoGenerated_exact_match (key : string) (value : DocumentNode)
  (rest : list (string * DocumentNode)) (path : list string) (remain : Z)
  (descends : remain <> 0) :
  (autoGenerated key = true <-> In key autoGenerated_keys)
  /\ (forall known, In known autoGenerated_keys ->
        fold_case key = fold_case known -> key <> known ->
        autoGenerated key = false)
  /\ autoGenerated "Status" = false
  /\ autoGenerated "STATUS" = false
  /\ (autoGenerated key = false ->
        walk true (encode (Mapping ((key, value) :: rest))) path remain
        = ((map (leaf_text (path ++ [key]))
              (leaves (cut (depth_of (nextRem remain))
                         (prune autoGenerated value)))
              ++ fst (walk true (encode (Mapping rest)) path remain))%list,
           Done tt))
  /\ walk false (encode (Mapping ((key, value) :: rest))) path remain
     = ((map (leaf_text (path ++ [key]))
           (leaves (cut (depth_of (nextRem remain)) value))
           ++ fst (walk false (encode (Mapping rest)) path remain))%list,
        Done tt)
  /\ (forall text, autoGenerated key = false ->
        walk true (encode (Mapping [(key, Scalar text)])) path remain
        = ([dotted (path ++ [key]) ++ ": " ++ text ++ newline], Done tt))
  /\ (forall text,
        walk false (encode (Mapping [(key, Scalar text)])) path remain
        = ([dotted (path ++ [key]) ++ ": " ++ text ++ newline], Done tt))
  /\ walk true
       (encode (Mapping [("Status", Scalar "ok"); ("STATUS", Scalar "up");
                         ("status", Scalar "no")])) [] (-1)
     = (["Status: ok" ++ newline; "STATUS: up" ++ newline], Done tt)
  /\ walk false (encode (Mapping [("status", Scalar "no")])) [] (-1)
     = (["status: no" ++ newline], Done tt).
Proof.
  assert (Hscalar : forall pure text, pruned pure key = false ->
            walk pure (encode (Mapping [(key, Scalar text)])) path remain
            = ([dotted (path ++ [key]) ++ ": " ++ text ++ newline], Done tt)).
  { intros pure text Hkey. rewrite walk_Mapping_cons_lines by assumption.
    rewrite (walk_lines pure (Mapping [])), prune_Mapping. unfold leaf_text.
    destruct (depth_of (nextRem remain)) as [d|];
      destruct (depth_of remain) as [[|d']|] eqn:E;
      try (apply depth_of_zero in E; contradiction);
      cbn [cut prune prune_entries truncate leaves map fst snd app];
      rewrite ?app_nil_r; reflexivity. }
  split; [apply autoGenerated_true_iff|].
  split; [apply autoGenerated_case_variant|].
  split; [reflexivity|]. split; [reflexivity|].
  split; [|split; [|split; [|split; [|split]]]].
  - intro Hkey.
    apply (walk_Mapping_cons_lines true key value rest path remain descends Hkey).
  - rewrite (walk_Mapping_cons_lines false) by (assumption || reflexivity).
    rewrite prune_nothing. reflexivity.
  - intros text Hkey. apply (Hscalar true text Hkey).
  - intro text. apply (Hscalar false text eq_refl).
  - reflexivity.
  - reflexivity.
Qed.

Lemma autoGenerated_exact_match_witness :
  walk true (encode (Mapping [("Status", Scalar "ok")])) [] (-1)
  = (["Status: ok" ++ newline], Done tt)
  /\ walk true (encode (Mapping [("Status", Scalar "ok"); ("status", Scalar "no")]))
       [] (-1)
     = (["Status: ok" ++ newline], Done tt)
  /\ walk false (encode (Mapping [("status", Scalar "no")])) [] (-1)
     = (["status: no" ++ newline], Done tt).
Proof.
  assert (Hnz : -1 <> 0) by lia.
  destruct (autoGenerated_exact_match "Status" (Scalar "ok")
              [("status", Scalar "no")] [] (-1) Hnz)
    as [_ [Hcase [_ [_ [Hon [_ [Hone _]]]]]]].
  destruct (autoGenerated_exact_match "status" (Scalar "no") [] [] (-1) Hnz)
    as [_ [_ [_ [_ [_ [_ [_ [Hoff _]]]]]]]].
  assert (Hknown : In "status" autoGenerated_keys).
  { do 6 right. left. reflexivity. }
  assert (Hneq : "Status" <> "status") by discriminate.
  pose proof (Hcase "status" Hknown eq_refl Hneq) as Hkey.
  split; [exact (Hone "ok" Hkey)|]. split; [exact (Hon Hkey) | exact (Hoff "no")].
Defined.

(** ** The empty entry *)

(** C9. For the empty [--entry], [main] takes the empty path
    ([entryPath] is the empty slice) and walks the root of the document
    itself: [findNodeByPath] is not called, the root is the node
    resolved. *)
Theorem empty_entry_is_root (pure : bool) (depth : Z) (root : Node)
  (others : list Node) :
  entryPath "" = []
  /\ resolve root "" = Done (Found root)
  /\ main_resource pure depth ""
       (yaml.mkNode yaml.DocumentNode "" (root :: others))
     = Done (Walked (walk pure root [] depth))
  /\ main_file pure depth ""
       (yaml.mkNode yaml.DocumentNode "" (root :: others))
     = Done (Walked (walk pure root [] depth)).
Proof. repeat split. Qed.

(** ** Facts on strings *)

Lemma append_assoc (a b c : string) : (a ++ b) ++ c = a ++ (b ++ c).
Proof. induction a as [|x a IH]; simpl; [reflexivity | now rewrite IH]. Qed.

Lemma length_append (a b : string) :
  String.length (a ++ b) = (String.length a + String.length b)%nat.
Proof. induction a as [|x a IH]; simpl; [reflexivity | now rewrite IH]. Qed.

Lemma substring_skip (pre s : string) (n : nat) :
  substring (String.length pre) n (pre ++ s) = substring 0 n s.
Proof. induction pre as [|x pre IH]; simpl; [reflexivity | exact IH]. Qed.

Lemma substring_take (mid post : string) :
  substring 0 (String.length mid) (mid ++ post) = mid.
Proof. induction mid as [|x mid IH]; simpl; [now destruct post | now rewrite IH]. Qed.

Lemma slice_middle (pre mid post : string) :
  slice (pre ++ mid ++ post) (Z.of_nat (String.length pre))
    (Z.of_nat (String.length pre) + Z.of_nat (String.length mid))
  = Some mid.
Proof.
  unfold slice. rewrite !length_append.
  replace (_ && _ && _) with true.
  - rewrite Nat2Z.id.
    replace (Z.to_nat _) with (String.length mid) by lia.
    rewrite substring_skip, substring_take. reflexivity.
  - symmetry. rewrite !andb_true_iff, !Z.leb_le. lia.
Qed.

Lemma Index_lower (s : string) (c : ascii) : -1 <= strings.Index s c.
Proof.
  induction s as [|a s IH]; simpl; [lia|].
  destruct (Ascii.eqb a c); [lia|].
  destruct (Z.ltb_spec (strings.Index s c) 0); lia.
Qed.

Lemma Contains_false (s : string) (c : ascii) :
  strings.Contains s c = false -> strings.Index s c = -1.
Proof.
  unfold strings.Contains. intro H. apply Z.leb_gt in H.
  pose proof (Index_lower s c). lia.
Qed.

Lemma Index_first (pre rest : string) (c : ascii) :
  strings.Index pre c = -1 ->
  strings.Index (pre ++ String c rest) c = Z.of_nat (String.length pre).
Proof.
  induction pre as [|a pre IH]; intro H.
  - simpl. rewrite Ascii.eqb_refl. reflexivity.
  - simpl in H. cbn [append strings.Index String.length].
    destruct (Ascii.eqb a c); [discriminate|].
    pose proof (Index_lower pre c).
    destruct (Z.ltb_spec (strings.Index pre c) 0); [|lia].
    rewrite IH by lia.
    destruct (Z.ltb_spec (Z.of_nat (String.length pre)) 0); lia.
Qed.

Lemma Index_absent_append (a b : string) (c : ascii) :
  strings.Index a c = -1 -> strings.Index b c = -1 ->
  strings.Index (a ++ b) c = -1.
Proof.
  induction a as [|x a IH]; intros Ha Hb; [exact Hb|].
  simpl in *. destruct (Ascii.eqb x c); [discriminate|].
  pose proof (Index_lower a c).
  destruct (Z.ltb_spec (strings.Index a c) 0); [|lia].
  rewrite IH by lia. reflexivity.
Qed.

(** ** Navigation *)

Lemma findNodeByPath_loop_app entrypoint node before after current :
  findNodeByPath_loop entrypoint node before = Done (Found current) ->
  findNodeByPath_loop entrypoint node (before ++ after)
  = findNodeByPath_loop entrypoint current after.
Proof.
  revert node. induction before as [|part before IH]; intros node H.
  - simpl in H. injection H as ->. reflexivity.
  - simpl in *.
    destruct (findNodeByPath_part entrypoint node part) as [[next|err]|];
      simpl in *; try discriminate.
    apply IH. exact H.
Qed.

Lemma bracket_part (name indexString : string) :
  strings.Contains name "[" = false ->
  strings.Contains name "]" = false ->
  strings.Contains indexString "]" = false ->
  let part := name ++ "[" ++ indexString ++ "]" in
  strings.Contains part "[" = true
  /\ slice part 0 (strings.Index part "[") = Some name
  /\ slice part (strings.Index part "[" + 1) (strings.Index part "]")
     = Some indexString.
Proof.
  intros Hopen Hclose Hidx part.
  apply Contains_false in Hopen, Hclose, Hidx.
  assert (Iopen : strings.Index part "[" = Z.of_nat (String.length name)).
  { apply (Index_first name (indexString ++ "]") "["). exact Hopen. }
  assert (Iclose : strings.Index part "]"
                   = Z.of_nat (String.length (name ++ "["))
                     + Z.of_nat (String.length indexString)).
  { replace part with ((name ++ "[" ++ indexString) ++ String "]" "")
      by (unfold part; rewrite !append_assoc; reflexivity).
    rewrite Index_first.
    - rewrite <- append_assoc, !length_append. lia.
    - apply Index_absent_append; [exact Hclose|].
      apply (Index_absent_append "[" indexString); [reflexivity | exact Hidx]. }
  split; [|split].
  - unfold strings.Contains. rewrite Iopen. apply Z.leb_le. lia.
  - rewrite Iopen.
    exact (slice_middle "" name ("[" ++ indexString ++ "]")).
  - rewrite Iopen, Iclose.
    replace (Z.of_nat (String.length name) + 1)
      with (Z.of_nat (String.length (name ++ "[")))
      by (rewrite length_append; simpl; lia).
    replace part with ((name ++ "[") ++ indexString ++ "]")
      by (unfold part; rewrite !append_assoc; reflexivity).
    apply slice_middle.
Qed.

Lemma Kind_eqb_neq (a b : yaml.Kind) : a <> b -> yaml.Kind_eqb a b = false.
Proof. destruct a, b; intro H; try reflexivity; contradiction H; reflexivity. Qed.

(** C7, as the code has it. When a part [name[index]] of the path is
    reached at a node where [name] is the key of a value that is not a
    sequence, or is a sequence with no more items than the index says,
    [findNodeByPath] returns the error
    ["index [<index>] out of range for <name>"]: it tells the index and
    the name of the field, not the length of the sequence. For
    ["items[5]"] on [{items: [x, y]}] the message is
    ["index [5] out of range for items"]. *)
Theorem index_out_of_range_names_field (node current child : Node)
  (entrypoint : string) (before after : list string)
  (name indexString : string)
  (Hparts : strings.Split entrypoint "."
            = (before ++ (name ++ "[" ++ indexString ++ "]")%string :: after)%list)
  (Hbefore : findNodeByPath_loop entrypoint node before = Done (Found current))
  (Hopen : strings.Contains name "[" = false)
  (Hclose : strings.Contains name "]" = false)
  (Hindex : strings.Contains indexString "]" = false)
  (Hchild : getMapValue current name = Done (Some child))
  (Hrange : Kind_of child <> yaml.SequenceNode
            \/ Z.of_nat (List.length (Content child))
               <= fst (strconv.Atoi indexString)) :
  findNodeByPath node entrypoint
  = Done (Failed (out_of_range (fst (strconv.Atoi indexString)) name)).
Proof.
  unfold findNodeByPath. rewrite Hparts.
  rewrite (findNodeByPath_loop_app _ _ _ _ _ Hbefore).
  destruct (bracket_part name indexString Hopen Hclose Hindex)
    as [Hcontains [Hname Hidx]].
  cbn [findNodeByPath_loop]. unfold findNodeByPath_part.
  rewrite Hcontains, Hname, Hidx, Hchild. cbn [bind].
  replace (negb _ || _) with true; [reflexivity|].
  symmetry. apply orb_true_iff. destruct Hrange as [Hkind | Hlen].
  - left. rewrite Kind_eqb_neq by assumption. reflexivity.
  - right. apply Z.leb_le. exact Hlen.
Qed.

Lemma index_out_of_range_names_field_witness :
  findNodeByPath (encode items_xy) "items[5]"
  = Done (Failed "index [5] out of range for items").
Proof.
  apply (index_out_of_range_names_field (encode items_xy) (encode items_xy)
           (encode (Sequence [Scalar "x"; Scalar "y"]))
           "items[5]" [] [] "items" "5").
  - reflexivity.
  - reflexivity.
  - reflexivity.
  - reflexivity.
  - reflexivity.
  - reflexivity.
  - right. simpl. lia.
Defined.

(** C7, as stated, fails: the error of an index out of range does not
    tell the length of the sequence. No function reads the bound off the
    error, since ["items[5]"] fails with the same error on a sequence of
    two items and on one of three. *)
Lemma index_error_has_no_bound :
  ~ exists bound_of : error -> Z,
      forall items : list DocumentNode,
        (List.length items <= 5)%nat ->
        exists err,
          findNodeByPath (encode (Mapping [("items", Sequence items)])) "items[5]"
          = Done (Failed err)
          /\ bound_of err = Z.of_nat (List.length items).
Proof.
  intros [bound_of H].
  destruct (H [Scalar "x"; Scalar "y"]) as [e2 [E2 B2]]; [simpl; lia|].
  destruct (H [Scalar "x"; Scalar "y"; Scalar "z"]) as [e3 [E3 B3]];
    [simpl; lia|].
  vm_compute in E2, E3.
  injection E2 as <-. injection E3 as <-.
  rewrite B2 in B3. discriminate.
Qed.

(** C6, on the code. A path whose index is not a number is not refused:
    the error of [Atoi] is dropped and the index is 0, so ["items[abc]"]
    and ["items[]"] resolve to the first item. A part with an opening
    bracket and no closing one, or with the closing one first, panics on
    the slice expression. An empty name between dots is looked up as the
    key [""] and found when the mapping has it. *)
Theorem malformed_path_not_refused :
  findNodeByPath (encode items_xy) "items[abc]"
  = Done (Found (encode (Scalar "x")))
  /\ findNodeByPath (encode items_xy) "items[]"
     = Done (Found (encode (Scalar "x")))
  /\ findNodeByPath (encode items_xy) "items[1" = Panicked
  /\ findNodeByPath (encode items_xy) "items]1[" = Panicked
  /\ findNodeByPath (encode empty_key) "a..b"
     = Done (Found (encode (Scalar "1"))).
Proof. repeat split. Qed.

(** C8, on the code. Navigation panics on a negative index, which passes
    the test [index >= len(child.Content)] and then indexes the slice, and
    on a part whose opening bracket has no closing one; the latter also
    through [main], where the panic comes before any lookup. *)
Theorem navigation_panics :
  findNodeByPath (encode items_xy) "items[-1]" = Panicked
  /\ resolve (encode items_xy) "items[-1]" = Panicked
  /\ findNodeByPath (encode items_xy) "items[1" = Panicked
  /\ (forall pure depth,
        main_resource pure depth "items[1" (document items_xy) = Panicked).
Proof. repeat split. Qed.

(** ** The entry as a prefix *)

(** C2, as the code has it. For the document
    [{spec: {containers: [{name: nginx, image: nginx:latest}]}}] and the
    entry ["spec.containers"], navigation from the root mapping resolves
    the sequence of containers, and [main] walks it with the parts of the
    entry as the prefix: two lines, for [name] then for [image], whose
    paths are [spec], [containers], the element of index 0 and the key. *)
Theorem entry_is_the_prefix :
  resolve (encode pod) "spec.containers" = Done (Found (encode containers))
  /\ entryPath "spec.containers" = ["spec"; "containers"]
  /\ walk false (encode containers) (entryPath "spec.containers") (-1)
     = returned
         [scalar_line ["spec"; "containers"; index_token 0; "name"] "nginx";
          scalar_line ["spec"; "containers"; index_token 0; "image"]
            "nginx:latest"]
  /\ walk false (encode containers) (entryPath "spec.containers") (-1)
     = (["spec.containers." ++ index_token 0 ++ ".name: nginx" ++ newline;
         "spec.containers." ++ index_token 0 ++ ".image: nginx:latest"
           ++ newline],
        Done tt).
Proof. repeat split. Qed.

(** C2, as stated, fails: the lines written are not ["[0].name: nginx"]
    and ["[0].image: nginx:latest"], neither with the prefix [main] passes
    nor with the empty prefix, and [main] as it is, which navigates from
    the document node, prints an error instead. *)
Lemma entry_prefix_not_empty :
  let claimed := returned ["[0].name: nginx" ++ LF;
                           "[0].image: nginx:latest" ++ LF] in
  resolve (encode pod) "spec.containers" = Done (Found (encode containers))
  /\ walk false (encode containers) (entryPath "spec.containers") (-1)
     <> claimed
  /\ walk false (encode containers) [] (-1) <> claimed
  /\ main_resource false (-1) "spec.containers" (document pod)
     <> Done (Walked claimed).
Proof.
  repeat split; intro H; vm_compute in H; discriminate H.
Qed.

(** ** The display path *)

Lemma Join_snoc (elems : list string) (last sep : string) :
  elems <> [] ->
  strings.Join (elems ++ [last]) sep = strings.Join elems sep ++ sep ++ last.
Proof.
  induction elems as [|a [|b rest] IH]; intro H.
  - contradiction H; reflexivity.
  - reflexivity.
  - change (strings.Join ((a :: b :: rest) ++ [last]) sep)
      with (a ++ sep ++ strings.Join ((b :: rest) ++ [last]) sep).
    rewrite IH by discriminate.
    change (strings.Join (a :: b :: rest) sep)
      with (a ++ sep ++ strings.Join (b :: rest) sep).
    rewrite !append_assoc. reflexivity.
Qed.

(** C3, on the code. The path of a line is the elements joined with a
    dot, and the element of an index is a backspace followed by [[i]]:
    after any segment an index is rendered as a dot, a backspace and
    [[i]]. The path of [c] in [{a: {b: [{c: v}]}}] is written as the bytes
    [a.b.], backspace, [[0].c], which holds the dot before the bracket
    and a backspace, and is not ["a.b[0].c"]. The empty prefix is
    rendered as the empty string. *)
Theorem render_keeps_dot_and_backspace (prefix : list PathSegment)
  (seg : PathSegment) (i : nat) :
  render (prefix ++ [seg; Index i])
  = render (prefix ++ [seg]) ++ "." ++ BS ++ "[" ++ fmt.d (Z.of_nat i) ++ "]"
  /\ render [Field "a"; Field "b"; Index 0; Field "c"] = "a.b." ++ BS ++ "[0].c"
  /\ render_spec [Field "a"; Field "b"; Index 0; Field "c"] = "a.b[0].c"
  /\ render [Field "a"; Field "b"; Index 0; Field "c"] <> "a.b[0].c"
  /\ walk false (encode abc_v) [] (-1)
     = returned ["a.b." ++ BS ++ "[0].c: v" ++ LF]
  /\ walk false (encode abc_v) [] (-1) <> returned ["a.b[0].c: v" ++ LF]
  /\ render [] = "".
Proof.
  split.
  - unfold render.
    replace (prefix ++ [seg; Index i])%list
      with ((prefix ++ [seg]) ++ [Index i])%list
      by (rewrite <- app_assoc; reflexivity).
    rewrite map_app. cbn [map]. rewrite Join_snoc; [reflexivity|].
    rewrite map_app. cbn [map]. intro H. apply app_eq_nil in H.
    destruct H as [_ H]. discriminate H.
  - repeat split; intro H; vm_compute in H; discriminate H.
Qed.

(** * Further properties *)

(** ** Induction on nodes *)

Section Node_induction.

Variable P : Node -> Prop.
Hypothesis P_node :
  forall kind value content,
    Forall P content -> P (yaml.mkNode kind value content).

Fixpoint Node_induction (node : Node) : P node :=
  match node with
  | yaml.mkNode kind value content =>
      P_node kind value content
        ((fix all (l : list Node) : Forall P l :=
            match l with
            | [] => Forall_nil P
            | child :: rest => Forall_cons child (Node_induction child) (all rest)
            end) content)
  end.

End Node_induction.

Lemma walk_plain_Mapping value content path :
  walk_plain (yaml.mkNode yaml.MappingNode value content) path
  = walk_plain_entries path content.
Proof.
  simpl. induction content as [| a | a b l IH] using pairs_ind; try reflexivity.
  simpl. rewrite IH. reflexivity.
Qed.

Lemma walk_plain_Sequence value content path :
  walk_plain (yaml.mkNode yaml.SequenceNode value content) path
  = walk_plain_items path 0 content.
Proof.
  simpl. generalize 0.
  induction content as [|item rest IH]; intro i; [reflexivity|].
  simpl. rewrite IH. reflexivity.
Qed.

Lemma nextRem_negative (remain : Z) : remain < 0 -> nextRem remain = remain.
Proof.
  intro H. unfold nextRem.
  replace (0 <? remain) with false by (symmetry; apply Z.ltb_ge; lia).
  reflexivity.
Qed.

(** ** The walker of main.go *)

(** X1. With [pure] off and a negative counter, [walk] writes on every node,
    well formed or not, what the [walk] of main.go writes, and panics
    where it panics. *)
Theorem walk_unlimited_is_walk_plain (node : Node) (path : list string)
  (remain : Z) (unbounded : remain < 0) :
  walk false node path remain = walk_plain node path.
Proof.
  revert path.
  induction node as [kind value content IH] using Node_induction.
  intro path.
  assert (Hnz : (remain =? 0) = false) by (apply Z.eqb_neq; lia).
  destruct kind; try reflexivity.
  - rewrite walk_Sequence, walk_plain_Sequence, Hnz, nextRem_negative
      by assumption.
    generalize 0.
    induction IH as [|item rest Hitem _ IHrest]; intro i; [reflexivity|].
    simpl. rewrite Hitem, IHrest. reflexivity.
  - rewrite walk_Mapping, walk_plain_Mapping, Hnz, nextRem_negative
      by assumption.
    revert IH.
    induction content as [| a | a b l IHl] using pairs_ind; intro IH;
      try reflexivity.
    inversion IH as [|? ? _ IH1]; subst.
    inversion IH1 as [|? ? Hb IH2]; subst.
    simpl. rewrite Hb, (IHl IH2). reflexivity.
Qed.

Lemma walk_unlimited_is_walk_plain_witness :
  walk false (encode pod) [] (-1) = walk_plain (encode pod) [].
Proof. apply walk_unlimited_is_walk_plain. lia. Defined.

(** ** The prefix of the lines *)

Lemma Split_nonempty (s : string) (sep : ascii) : strings.Split s sep <> [].
Proof.
  destruct s as [|a s]; simpl; [discriminate|].
  destruct (Ascii.eqb a sep); [discriminate|].
  destruct (strings.Split s sep); discriminate.
Qed.

Lemma Join_cons_nonempty (e : string) (rest : list string) (sep : string) :
  rest <> [] ->
  strings.Join (e :: rest) sep = e ++ sep ++ strings.Join rest sep.
Proof. destruct rest; [intro H; contradiction H; reflexivity | reflexivity]. Qed.

Lemma Join_Split (s : string) (sep : ascii) :
  strings.Join (strings.Split s sep) (String sep "") = s.
Proof.
  induction s as [|a s IH]; [reflexivity|].
  cbn [strings.Split]. destruct (Ascii.eqb_spec a sep) as [->|Hneq].
  - rewrite Join_cons_nonempty by apply Split_nonempty.
    rewrite IH. reflexivity.
  - pose proof (Split_nonempty s sep) as Hne.
    destruct (strings.Split s sep) as [|h t]; [contradiction Hne; reflexivity|].
    destruct t as [|h' t].
    + simpl in *. rewrite IH. reflexivity.
    + rewrite Join_cons_nonempty by discriminate.
      rewrite Join_cons_nonempty in IH by discriminate.
      simpl. rewrite <- IH. reflexivity.
Qed.

Lemma Join_extends (path : list string) (last : string) :
  exists more,
    strings.Join (path ++ [last]) "." = strings.Join path "." ++ more.
Proof.
  destruct path as [|a path].
  - exists last. reflexivity.
  - exists ("." ++ last). apply Join_snoc. discriminate.
Qed.

Lemma In_and_then (line : string) (a b : writes) :
  In line (fst (and_then a b)) -> In line (fst a) \/ In line (fst b).
Proof.
  unfold and_then. destruct (snd a); simpl; [apply in_app_or | auto].
Qed.

Lemma below_prefix (path : list string) (last line : string) :
  (exists rest, line = strings.Join (path ++ [last]) "." ++ rest) ->
  exists rest, line = strings.Join path "." ++ rest.
Proof.
  intros [rest ->]. destruct (Join_extends path last) as [more ->].
  exists (more ++ rest). apply append_assoc.
Qed.

Lemma walk_lines_prefix (node : Node) :
  forall pure path remain line,
    In line (fst (walk pure node path remain)) ->
    exists rest, line = strings.Join path "." ++ rest.
Proof.
  induction node as [kind value content IH] using Node_induction.
  intros pure path remain line.
  assert (one : forall text,
             In line [strings.Join path "." ++ text] ->
             exists rest, line = strings.Join path "." ++ rest).
  { intros text [<-|[]]. exists text. reflexivity. }
  destruct kind; try (apply one).
  - rewrite walk_Sequence. destruct (remain =? 0); [apply one|].
    generalize 0.
    induction IH as [|item rest Hitem _ IHrest]; intros i Hin; [destruct Hin|].
    simpl in Hin. apply In_and_then in Hin. destruct Hin as [Hin|Hin].
    + apply (below_prefix path (index_token i)). eapply Hitem. exact Hin.
    + eapply IHrest. exact Hin.
  - rewrite walk_Mapping. destruct (remain =? 0); [apply one|].
    revert IH.
    induction content as [| a | a b l IHl] using pairs_ind; intros IH Hin;
      try destruct Hin.
    inversion IH as [|? ? _ IH1]; subst.
    inversion IH1 as [|? ? Hb IH2]; subst.
    simpl in Hin. destruct (pure && autoGenerated (Value a)).
    + apply (IHl IH2 Hin).
    + apply In_and_then in Hin. destruct Hin as [Hin|Hin].
      * apply (below_prefix path (Value a)). eapply Hb. exact Hin.
      * apply (IHl IH2 Hin).
Qed.

(** X2. Whatever the node, the flag and the counter, every line that [main]
    makes [walk] write begins with the entry as it was typed: the path
    [main] splits at the dots is joined again with dots in front of each
    line. *)
Theorem lines_begin_with_entry (pure : bool) (node : Node) (entry : string)
  (depth : Z) (line : string)
  (written : In line (fst (walk pure node (entryPath entry) depth))) :
  strings.Join (entryPath entry) "." = entry
  /\ exists rest, line = entry ++ rest.
Proof.
  assert (E : strings.Join (entryPath entry) "." = entry).
  { unfold entryPath. destruct (String.eqb_spec entry "") as [->|_];
      [reflexivity | apply (Join_Split entry ".")]. }
  split; [exact E|].
  rewrite <- E. eapply walk_lines_prefix. exact written.
Qed.

Lemma lines_begin_with_entry_witness :
  exists rest,
    scalar_line ["spec"; "containers"; index_token 0; "name"] "nginx"
    = "spec.containers" ++ rest.
Proof.
  apply (lines_begin_with_entry false (encode containers) "spec.containers" (-1)).
  left. reflexivity.
Defined.

(** ** Kinds *)

(** X3. [resolveKind] returns a kind that it maps to itself: resolving twice
    is resolving once, whatever the input. *)
Theorem resolveKind_idempotent (input : string) :
  resolveKind (resolveKind input) = resolveKind input.
Proof.
  unfold resolveKind at 2 3.
  destruct (find _ resolveKind_cases) as [c|] eqn:E.
  - apply find_some in E. destruct E as [Hin _].
    cbv [resolveKind_cases In] in Hin.
    repeat match goal with
           | H : _ \/ _ |- _ => destruct H as [<-|H]
           | H : False |- _ => destruct H
           end;
      reflexivity.
  - unfold resolveKind. rewrite E. reflexivity.
Qed.

(** ** Lookup in a mapping *)

Lemma getMapValue_loop_encode entries key :
  getMapValue_loop (encode_entries entries) key
  = Done (option_map encode (first_value entries key)).
Proof.
  unfold first_value.
  induction entries as [|[k v] rest IH]; [reflexivity|].
  cbn [encode_entries getMapValue_loop find fst Value].
  cbn [yaml.Value]. destruct (String.eqb k key); [reflexivity | exact IH].
Qed.

(** X4. On the node of a decoded document [getMapValue] does not panic: on a
    mapping it returns the value of the first entry whose key is the
    given one, byte for byte, and nil when there is none; on a scalar or
    a sequence it returns nil. *)
Theorem getMapValue_first_entry (t : DocumentNode) (key : string) :
  getMapValue (encode t) key
  = Done match t with
         | Mapping entries => option_map encode (first_value entries key)
         | _ => None
         end.
Proof.
  destruct t as [text | items | entries]; try reflexivity.
  rewrite encode_Mapping. apply getMapValue_loop_encode.
Qed.

(** ** Paths without brackets *)

Lemma Contains_cons (a : ascii) (r : string) (c : ascii) :
  strings.Contains (String a r) c = Ascii.eqb a c || strings.Contains r c.
Proof.
  unfold strings.Contains. cbn [strings.Index].
  destruct (Ascii.eqb a c); [reflexivity|]. cbn [orb].
  pose proof (Index_lower r c).
  destruct (Z.ltb_spec (strings.Index r c) 0);
    destruct (Z.leb_spec 0 (strings.Index r c)); try lia;
    try reflexivity; apply Z.leb_le; lia.
Qed.

Lemma Split_parts_without (s : string) (sep c : ascii) :
  strings.Contains s c = false ->
  Forall (fun part => strings.Contains part c = false) (strings.Split s sep).
Proof.
  induction s as [|a s IH]; intro H.
  - repeat constructor.
  - rewrite Contains_cons in H. apply orb_false_iff in H.
    destruct H as [Ha Hs]. specialize (IH Hs).
    cbn [strings.Split]. destruct (Ascii.eqb a sep).
    + constructor; [reflexivity | exact IH].
    + destruct (strings.Split s sep) as [|h t].
      * repeat constructor. rewrite Contains_cons, Ha. reflexivity.
      * inversion IH as [|? ? Hh Ht]; subst. constructor; [|exact Ht].
        rewrite Contains_cons, Ha, Hh. reflexivity.
Qed.

Lemma findNodeByPath_loop_fields (names : list string) :
  forall (t : DocumentNode) (entrypoint : string),
    Forall (fun name => strings.Contains name "[" = false) names ->
    findNodeByPath_loop entrypoint (encode t) names
    = Done match descend t names with
           | Some t' => Found (encode t')
           | None => Failed ("invalid format: " ++ entrypoint)
           end.
Proof.
  induction names as [|name rest IH]; intros t entrypoint Hnames;
    [reflexivity|].
  inversion Hnames as [|? ? Hname Hrest]; subst.
  cbn [findNodeByPath_loop descend]. unfold findNodeByPath_part.
  rewrite Hname, getMapValue_first_entry. cbn [bind].
  destruct t as [text | items | entries]; try reflexivity.
  destruct (first_value entries name) as [value|]; [|reflexivity].
  cbn [option_map bind]. apply IH. exact Hrest.
Qed.

(** X5. For an entry without an opening bracket, [findNodeByPath] on the
    node of a decoded document does not panic: it follows the parts of
    the entry as keys, taking at each mapping the first entry with the
    key, and returns the node reached; when a key is missing, or the node
    reached is not a mapping, it returns the error
    ["invalid format: <entry>"]. *)
Theorem findNodeByPath_follows_keys (t : DocumentNode) (entry : string)
  (plain : strings.Contains entry "[" = false) :
  findNodeByPath (encode t) entry
  = Done match descend t (strings.Split entry ".") with
         | Some t' => Found (encode t')
         | None => Failed ("invalid format: " ++ entry)
         end.
Proof.
  unfold findNodeByPath. apply findNodeByPath_loop_fields.
  apply Split_parts_without. exact plain.
Qed.

Lemma findNodeByPath_follows_keys_witness :
  findNodeByPath (encode pod) "spec.containers" = Done (Found (encode containers))
  /\ findNodeByPath (encode pod) "spec.volumes"
     = Done (Failed "invalid format: spec.volumes").
Proof.
  split.
  - apply (findNodeByPath_follows_keys pod "spec.containers"). reflexivity.
  - apply (findNodeByPath_follows_keys pod "spec.volumes"). reflexivity.
Defined.

(** ** Composition of paths *)

Lemma Split_append (a b : string) (sep : ascii) :
  strings.Split (a ++ String sep b) sep
  = (strings.Split a sep ++ strings.Split b sep)%list.
Proof.
  induction a as [|x a IH]; simpl.
  - rewrite Ascii.eqb_refl. reflexivity.
  - rewrite IH. destruct (Ascii.eqb x sep); [reflexivity|].
    pose proof (Split_nonempty a sep) as Hne.
    destruct (strings.Split a sep); [contradiction Hne|]; reflexivity.
Qed.

Lemma findNodeByPath_part_found (e1 e2 : string) (current : Node)
  (part : string) (next : Node) :
  findNodeByPath_part e1 current part = Done (Found next) ->
  findNodeByPath_part e2 current part = Done (Found next).
Proof.
  unfold findNodeByPath_part. destruct (strings.Contains part "[").
  - destruct (slice part 0 _) as [name|]; [|discriminate].
    destruct (slice part _ _) as [indexString|]; [|discriminate].
    destruct (getMapValue current name) as [[child|]|]; cbn [bind];
      try discriminate.
    intro H. exact H.
  - destruct (getMapValue current part) as [[n|]|]; cbn [bind];
      try discriminate.
    intro H. exact H.
Qed.

Lemma findNodeByPath_loop_found (e1 e2 : string) (parts : list string) :
  forall current last,
    findNodeByPath_loop e1 current parts = Done (Found last) ->
    findNodeByPath_loop e2 current parts = Done (Found last).
Proof.
  induction parts as [|part parts IH]; intros current last H; [exact H|].
  cbn [findNodeByPath_loop] in *.
  destruct (findNodeByPath_part e1 current part) as [[next|err]|] eqn:E;
    cbn [bind] in H; try discriminate.
  rewrite (findNodeByPath_part_found e1 e2 _ _ _ E). cbn [bind].
  apply IH. exact H.
Qed.

(** X6. Navigation composes at a dot: when the path [p] leads from a node to
    a second one and the path [q] from the second to a third,
    the path [p.q] leads from the first to the third. This holds on
    every node and for parts with brackets too. *)
Theorem findNodeByPath_composes (node middle last : Node) (p q : string)
  (first_leg : findNodeByPath node p = Done (Found middle))
  (second_leg : findNodeByPath middle q = Done (Found last)) :
  findNodeByPath node (p ++ "." ++ q) = Done (Found last).
Proof.
  unfold findNodeByPath in *.
  change (p ++ "." ++ q) with (p ++ String "." q).
  rewrite Split_append.
  rewrite (findNodeByPath_loop_app _ node _ _ middle).
  - eapply findNodeByPath_loop_found. exact second_leg.
  - eapply findNodeByPath_loop_found. exact first_leg.
Qed.

Lemma findNodeByPath_composes_witness :
  findNodeByPath (encode pod) "spec.containers[0].image"
  = Done (Found (encode (Scalar "nginx:latest"))).
Proof.
  apply (findNodeByPath_composes (encode pod)
           (encode (Mapping [("name", Scalar "nginx");
                             ("image", Scalar "nginx:latest")]))
           (encode (Scalar "nginx:latest")) "spec.containers[0]" "image");
    reflexivity.
Defined.

(** ** The entry in [main] *)

Lemma findNodeByPath_part_not_mapping (entrypoint : string) (current : Node)
  (part : string) (next : Node) :
  Kind_of current <> yaml.MappingNode ->
  findNodeByPath_part entrypoint current part <> Done (Found next).
Proof.
  intro Hkind.
  assert (Hnil : forall key, getMapValue current key = Done None).
  { intro key. unfold getMapValue. rewrite Kind_eqb_neq by assumption.
    reflexivity. }
  unfold findNodeByPath_part. destruct (strings.Contains part "[").
  - destruct (slice part 0 _) as [name|]; [|discriminate].
    destruct (slice part _ _) as [indexString|]; [|discriminate].
    rewrite Hnil. discriminate.
  - rewrite Hnil. discriminate.
Qed.

(** X7. [main] calls [findNodeByPath] on the document node, which is not a
    mapping: so for every non-empty entry it walks nothing. It prints an
    error or panics, and for an entry without an opening bracket on a
    decoded document the error is ["invalid format: <entry>"], even when
    the entry is a path of the document. *)
Theorem main_resource_never_walks (pure : bool) (depth : Z) (entry : string)
  (yamlRoot : Node)
  (nonempty : entry <> "")
  (document_node : Kind_of yamlRoot = yaml.DocumentNode) :
  ((exists err, main_resource pure depth entry yamlRoot = Done (Printed err))
   \/ main_resource pure depth entry yamlRoot = Panicked)
  /\ (strings.Contains entry "[" = false -> Content yamlRoot <> [] ->
      main_resource pure depth entry yamlRoot
      = Done (Printed ("invalid format: " ++ entry))).
Proof.
  assert (Hkind : Kind_of yamlRoot <> yaml.MappingNode)
    by (rewrite document_node; discriminate).
  assert (Hentry : String.eqb entry "" = false)
    by (apply String.eqb_neq; exact nonempty).
  assert (Hnil : forall key, getMapValue yamlRoot key = Done None).
  { intro key. unfold getMapValue. rewrite Kind_eqb_neq by assumption.
    reflexivity. }
  unfold main_resource, findNodeByPath. rewrite Hentry.
  pose proof (Split_nonempty entry ".") as Hparts.
  split.
  - destruct (at_index (Content yamlRoot) 0) as [rootNode|]; cbn [bind];
      [|right; reflexivity].
    destruct (strings.Split entry ".") as [|part parts];
      [contradiction Hparts; reflexivity|].
    cbn [findNodeByPath_loop].
    pose proof (findNodeByPath_part_not_mapping entry yamlRoot part) as Hpart.
    destruct (findNodeByPath_part entry yamlRoot part) as [[next|err]|];
      cbn [bind].
    + contradiction (Hpart next Hkind). reflexivity.
    + left. exists err. reflexivity.
    + right. reflexivity.
  - intros plain Hcontent.
    destruct (Content yamlRoot) as [|rootNode others];
      [contradiction Hcontent; reflexivity|].
    cbn [at_index Z.ltb Z.compare Z.to_nat nth_error bind].
    pose proof (Split_parts_without entry "." "[" plain) as Hplain.
    destruct (strings.Split entry ".") as [|part parts];
      [contradiction Hparts; reflexivity|].
    inversion Hplain as [|? ? Hpart _]; subst.
    cbn [findNodeByPath_loop]. unfold findNodeByPath_part.
    rewrite Hpart, Hnil. reflexivity.
Qed.

Lemma main_resource_never_walks_witness :
  main_resource false (-1) "spec.containers" (document pod)
  = Done (Printed "invalid format: spec.containers").
Proof.
  assert (Hne : "spec.containers" <> "") by discriminate.
  destruct (main_resource_never_walks false (-1) "spec.containers"
              (document pod) Hne eq_refl) as [_ H].
  apply H; [reflexivity | discriminate].
Defined.

(** ** A counter above the height *)

Lemma flatten_beyond_height keys (t : DocumentNode) :
  forall path d,
    (height t <= d)%nat ->
    flatten_spec keys t path (Some d) = flatten_spec keys t path None.
Proof.
  induction t as [text | items IH | entries IH] using DocumentNode_induction;
    intros path d Hd.
  - reflexivity.
  - rewrite !flatten_spec_Sequence. cbn [height] in Hd.
    destruct d as [|d]; [lia|]. cbn [below].
    assert (Hitems : (list_max (map height items) <= d)%nat) by lia.
    clear Hd. generalize O.
    induction IH as [|item rest Hitem _ IHrest]; intro i; [reflexivity|].
    cbn [map list_max fold_right] in Hitems. fold (list_max (map height rest)) in Hitems.
    cbn [flatten_items]. rewrite Hitem by lia. rewrite IHrest by lia.
    reflexivity.
  - rewrite !flatten_spec_Mapping.
    change (height (Mapping entries)) with (S (height_entries entries)) in Hd.
    destruct d as [|d]; [lia|]. cbn [below].
    assert (Hentries : (height_entries entries <= d)%nat) by lia.
    clear Hd.
    induction IH as [|[key value] rest Hvalue _ IHrest]; [reflexivity|].
    cbn [height_entries] in Hentries. cbn [flatten_entries snd] in *.
    rewrite Hvalue by lia. rewrite IHrest by lia. reflexivity.
Qed.

(** X8. A counter that is at least the number of nested levels of the
    document cuts nothing: [walk] writes what it writes without a limit,
    with [pure] on or off. *)
Theorem depth_beyond_height_is_unlimited (pure : bool) (t : DocumentNode)
  (path : list string) (remain : Z)
  (enough : Z.of_nat (height t) <= remain) :
  walk pure (encode t) path remain = walk pure (encode t) path (-1).
Proof.
  rewrite !walk_encode. rewrite depth_of_nonnegative by lia.
  rewrite flatten_beyond_height by lia. reflexivity.
Qed.

Lemma depth_beyond_height_is_unlimited_witness :
  height pod = 4%nat
  /\ walk true (encode pod) [] 4 = walk true (encode pod) [] (-1).
Proof.
  split; [reflexivity|].
  apply depth_beyond_height_is_unlimited. simpl. lia.
Defined.

(** ** Pruning removes lines only *)

Lemma subsequence_refl (A : Type) (l : list A) : subsequence l l.
Proof. induction l; constructor; assumption. Qed.

Lemma subsequence_grow (A : Type) (extra l1 l2 : list A) :
  subsequence l1 l2 -> subsequence l1 (extra ++ l2).
Proof. intro H. induction extra; simpl; [exact H | constructor; assumption]. Qed.

Lemma subsequence_app (A : Type) (a b c d : list A) :
  subsequence a b -> subsequence c d -> subsequence (a ++ c) (b ++ d).
Proof. intros Hab Hcd. induction Hab; simpl; try constructor; assumption. Qed.

Lemma flatten_subsequence keys (t : DocumentNode) :
  forall path depth,
    subsequence (flatten_spec keys t path depth)
                (flatten_spec (pruned false) t path depth).
Proof.
  induction t as [text | items IH | entries IH] using DocumentNode_induction;
    intros path depth.
  - apply subsequence_refl.
  - rewrite !flatten_spec_Sequence.
    destruct depth as [[|d]|]; try apply subsequence_refl; cbn [below];
      generalize O;
      (induction IH as [|item rest Hitem _ IHrest]; intro i;
       [constructor | cbn [flatten_items]; apply subsequence_app; auto]).
  - rewrite !flatten_spec_Mapping.
    destruct depth as [[|d]|]; try apply subsequence_refl; cbn [below];
      (induction IH as [|[key value] rest Hvalue _ IHrest];
       [constructor
       | cbn [flatten_entries snd] in *; destruct (keys key);
         [apply subsequence_grow; exact IHrest
         | apply subsequence_app; auto]]).
Qed.

(** X9. Whatever the counter, the lines that [walk] writes for a decoded
    document with [pure] on are lines that it writes with [pure] off, in
    the same order: the flag drops lines and neither adds nor changes
    nor moves any. *)
Theorem pure_only_drops_lines (t : DocumentNode) (path : list string)
  (remain : Z) :
  subsequence (fst (walk true (encode t) path remain))
              (fst (walk false (encode t) path remain)).
Proof.
  rewrite !walk_encode. apply flatten_subsequence.
Qed.

(** ** The lines below an entry *)

Lemma first_value_split entries name value :
  first_value entries name = Some value ->
  exists before after, entries = (before ++ (name, value) :: after)%list.
Proof.
  unfold first_value. induction entries as [|[k v] rest IH]; [discriminate|].
  cbn [find fst]. destruct (String.eqb_spec k name) as [->|_].
  - intro H. injection H as ->. exists [], rest. reflexivity.
  - intro H. destruct (IH H) as [before [after ->]].
    exists ((k, v) :: before), after. reflexivity.
Qed.

Lemma flatten_entries_app keys path depth es1 es2 :
  flatten_entries keys path depth (es1 ++ es2)
  = (flatten_entries keys path depth es1
       ++ flatten_entries keys path depth es2)%list.
Proof.
  induction es1 as [|[k v] es1 IH]; [reflexivity|].
  cbn [app flatten_entries]. rewrite IH.
  destruct (keys k); [reflexivity | apply app_assoc].
Qed.

Lemma descend_block (names : list string) :
  forall t t' path,
    descend t names = Some t' ->
    exists before after,
      flatten_spec (pruned false) t path None
      = (before ++ flatten_spec (pruned false) t' (path ++ names) None
           ++ after)%list.
Proof.
  induction names as [|name rest IH]; intros t t' path H.
  - injection H as ->. exists [], []. rewrite !app_nil_r. reflexivity.
  - cbn [descend] in H. destruct t as [text | items | entries];
      try discriminate.
    destruct (first_value entries name) as [value|] eqn:E; [|discriminate].
    destruct (first_value_split _ _ _ E) as [es1 [es2 ->]].
    destruct (IH value t' (path ++ [name])%list H) as [b [a Hvalue]].
    rewrite flatten_spec_Mapping. cbn [below].
    rewrite flatten_entries_app. cbn [flatten_entries].
    change (pruned false name) with false. cbv iota.
    rewrite Hvalue.
    exists (flatten_entries (pruned false) path None es1 ++ b)%list,
           (a ++ flatten_entries (pruned false) path None es2)%list.
    rewrite <- !app_assoc. reflexivity.
Qed.

(** X10. For an entry without brackets that [findNodeByPath] resolves on a
    decoded document, the lines [walk] writes for the resolved node with
    the entry as the prefix are a block of consecutive lines among those
    it writes for the whole document from the empty prefix (no limit,
    [pure] off): the entry selects lines, it does not change them. *)
Theorem entry_lines_are_a_block (t : DocumentNode) (entry : string)
  (node : Node) (remain : Z)
  (nonempty : entry <> "")
  (plain : strings.Contains entry "[" = false)
  (resolved : findNodeByPath (encode t) entry = Done (Found node))
  (unbounded : remain < 0) :
  exists before after,
    fst (walk false (encode t) [] remain)
    = (before ++ fst (walk false node (entryPath entry) remain) ++ after)%list.
Proof.
  rewrite findNodeByPath_follows_keys in resolved by assumption.
  destruct (descend t (strings.Split entry ".")) as [t'|] eqn:E;
    [|discriminate].
  injection resolved as <-.
  unfold entryPath. rewrite (proj2 (String.eqb_neq _ _) nonempty).
  rewrite !walk_encode, depth_of_negative by assumption.
  destruct (descend_block _ t t' [] E) as [before [after H]].
  exists before, after. exact H.
Qed.

Lemma entry_lines_are_a_block_witness :
  exists before after,
    fst (walk false (encode pod) [] (-1))
    = (before
         ++ fst (walk false (encode containers) ["spec"; "containers"] (-1))
         ++ after)%list.
Proof.
  apply (entry_lines_are_a_block pod "spec.containers" (encode containers) (-1)).
  - discriminate.
  - reflexivity.
  - reflexivity.
  - lia.
Defined.

(** ** The walker whose path is a string *)












(** ** Decimal indexes *)

Lemma of_uint_acc_grows (u : Decimal.uint) :
  forall p : positive, Z.pos p <= Z.pos (Pos.of_uint_acc u p).
Proof.
  induction u as [|u IH|u IH|u IH|u IH|u IH|u IH|u IH|u IH|u IH|u IH];
    intro p; cbn [Pos.of_uint_acc]; [lia|..];
    match goal with
    | |- _ <= Z.pos (Pos.of_uint_acc _ ?q) => specialize (IH q)
    end;
    lia.
Qed.

Lemma digits_from_positive (u : Decimal.uint) :
  forall p : positive,
    Z.pos (Pos.of_uint_acc u p) <= strconv.maxUint64 ->
    strconv.digits (NilEmpty.string_of_uint u) (Z.pos p)
    = strconv.Value (Z.pos (Pos.of_uint_acc u p)).
Proof.
  unfold strconv.maxUint64.
  induction u as [|u IH|u IH|u IH|u IH|u IH|u IH|u IH|u IH|u IH|u IH];
    intros p Hmax; [reflexivity|..];
    cbn [NilEmpty.string_of_uint strconv.digits Pos.of_uint_acc] in *;
    match goal with
    | |- context [strconv.digit ?c] =>
        let d := eval vm_compute in (strconv.digit c) in
        change (strconv.digit c) with d
    end;
    cbv iota; unfold strconv.maxUint64;
    match goal with
    | H : Z.pos (Pos.of_uint_acc _ ?q) <= _
      |- context [strconv.digits _ ?acc] =>
        pose proof (of_uint_acc_grows u q) as Hgrow;
        replace acc with (Z.pos q) by lia;
        replace (strconv.cutoff <=? Z.pos p) with false
          by (symmetry; apply Z.leb_gt; unfold strconv.cutoff; lia);
        replace (18446744073709551615 <? Z.pos q) with false
          by (symmetry; apply Z.ltb_ge; lia);
        apply IH; exact H
    end.
Qed.

Lemma digits_from_zero (u : Decimal.uint) :
  Z.of_N (Pos.of_uint u) <= strconv.maxUint64 ->
  strconv.digits (NilEmpty.string_of_uint u) 0
  = strconv.Value (Z.of_N (Pos.of_uint u)).
Proof.
  induction u as [|u IH|u IH|u IH|u IH|u IH|u IH|u IH|u IH|u IH|u IH];
    intro Hmax; [reflexivity | exact (IH Hmax) |..];
    cbn [NilEmpty.string_of_uint strconv.digits Pos.of_uint Z.of_N] in *;
    match goal with
    | |- context [strconv.digit ?c] =>
        let d := eval vm_compute in (strconv.digit c) in
        change (strconv.digit c) with d
    end;
    cbv iota;
    match goal with
    | |- context [strconv.digits _ ?acc] =>
        let v := eval vm_compute in acc in change acc with v
    end;
    change (strconv.cutoff <=? 0) with false; cbv iota;
    match goal with
    | |- context [strconv.maxUint64 <? ?k] =>
        change (strconv.maxUint64 <? k) with false
    end;
    cbv iota;
    rewrite digits_from_positive by exact Hmax; reflexivity.
Qed.

Lemma Atoi_unsigned (c : ascii) (r : string) (d : Z) :
  strconv.digit c = Some d ->
  strconv.Atoi (String c r)
  = match strconv.digits (String c r) 0 with
    | strconv.SyntaxError => (0, true)
    | strconv.RangeError => (strconv.maxInt, true)
    | strconv.Value n => in_range n
    end.
Proof.
  destruct c as [[|] [|] [|] [|] [|] [|] [|] [|]]; intro H;
    try (vm_compute in H; discriminate H); reflexivity.
Qed.

Lemma Atoi_uint (u : Decimal.uint) :
  u <> Decimal.Nil ->
  Z.of_N (Pos.of_uint u) <= strconv.maxUint64 ->
  strconv.Atoi (NilEmpty.string_of_uint u) = in_range (Z.of_N (Pos.of_uint u)).
Proof.
  intros Hu Hmax. pose proof (digits_from_zero u Hmax) as Hd.
  destruct u; [contradiction Hu; reflexivity |..];
    cbn [NilEmpty.string_of_uint] in *;
    (erewrite Atoi_unsigned by (vm_compute; reflexivity));
    rewrite Hd; reflexivity.
Qed.

Lemma d_positive (p : positive) :
  fmt.d (Z.pos p) = NilEmpty.string_of_uint (Pos.to_uint p).
Proof.
  unfold fmt.d. cbn [Z.to_int NilZero.string_of_int].
  pose proof (DecimalPos.Unsigned.to_uint_nonnil p) as Hnil.
  destruct (Pos.to_uint p); [contradiction Hnil|..]; reflexivity.
Qed.

Lemma Atoi_d (n : Z) :
  0 <= n <= strconv.maxInt -> strconv.Atoi (fmt.d n) = (n, false).
Proof.
  intros [Hlo Hhi]. destruct n as [|p|p]; [reflexivity | | lia].
  rewrite d_positive, Atoi_uint.
  - rewrite DecimalPos.Unsigned.of_to. unfold in_range. cbn [Z.of_N].
    replace (strconv.maxInt <? Z.pos p) with false
      by (symmetry; apply Z.ltb_ge; lia).
    reflexivity.
  - apply DecimalPos.Unsigned.to_uint_nonnil.
  - rewrite DecimalPos.Unsigned.of_to. cbn [Z.of_N].
    unfold strconv.maxInt, strconv.maxUint64 in *. lia.
Qed.

Lemma uint_digits_only (u : Decimal.uint) (c : ascii) :
  strconv.digit c = None ->
  strings.Contains (NilEmpty.string_of_uint u) c = false.
Proof.
  intro Hc.
  induction u as [|u IH|u IH|u IH|u IH|u IH|u IH|u IH|u IH|u IH|u IH];
    [reflexivity |..];
    cbn [NilEmpty.string_of_uint]; rewrite Contains_cons, IH;
    match goal with
    | |- Ascii.eqb ?k c || false = false =>
        destruct (Ascii.eqb_spec k c) as [<-|_];
        [vm_compute in Hc; discriminate Hc | reflexivity]
    end.
Qed.

Lemma d_digits_only (n : Z) (c : ascii) :
  0 <= n -> strconv.digit c = None -> strings.Contains (fmt.d n) c = false.
Proof.
  intros Hn Hc. destruct n as [|p|p]; [| | lia].
  - change (fmt.d 0) with "0". rewrite Contains_cons.
    destruct (Ascii.eqb_spec "0" c) as [<-|_];
      [vm_compute in Hc; discriminate Hc | reflexivity].
  - rewrite d_positive. apply uint_digits_only. exact Hc.
Qed.

Lemma Kind_eqb_refl (k : yaml.Kind) : yaml.Kind_eqb k k = true.
Proof. destruct k; reflexivity. Qed.

(** X12. A part [name[i]], with [i] written in decimal, selects the item of
    index [i]: where [name] is the key of a sequence that has an item at
    [i], navigation goes on from that item, whatever comes before and
    after the part in the path. The digits of [i] are read back by [Atoi]
    as [i]. *)
Theorem index_selects_item (node current child item : Node)
  (entrypoint : string) (before after : list string) (name : string)
  (i : nat)
  (Hparts : strings.Split entrypoint "."
            = (before ++ (name ++ "[" ++ fmt.d (Z.of_nat i) ++ "]")%string
                 :: after)%list)
  (Hbefore : findNodeByPath_loop entrypoint node before = Done (Found current))
  (Hopen : strings.Contains name "[" = false)
  (Hclose : strings.Contains name "]" = false)
  (Hchild : getMapValue current name = Done (Some child))
  (Hkind : Kind_of child = yaml.SequenceNode)
  (Hitem : nth_error (Content child) i = Some item)
  (Hint : Z.of_nat (List.length (Content child)) <= strconv.maxInt) :
  strconv.Atoi (fmt.d (Z.of_nat i)) = (Z.of_nat i, false)
  /\ findNodeByPath node entrypoint = findNodeByPath_loop entrypoint item after.
Proof.
  assert (Hlt : (i < List.length (Content child))%nat).
  { apply nth_error_Some. rewrite Hitem. discriminate. }
  assert (Hatoi : strconv.Atoi (fmt.d (Z.of_nat i)) = (Z.of_nat i, false))
    by (apply Atoi_d; lia).
  split; [exact Hatoi|].
  unfold findNodeByPath. rewrite Hparts.
  rewrite (findNodeByPath_loop_app _ _ _ _ _ Hbefore).
  assert (Hindex : strings.Contains (fmt.d (Z.of_nat i)) "]" = false)
    by (apply d_digits_only; [lia | reflexivity]).
  destruct (bracket_part name (fmt.d (Z.of_nat i)) Hopen Hclose Hindex)
    as [Hcontains [Hname Hidx]].
  cbn [findNodeByPath_loop]. unfold findNodeByPath_part.
  rewrite Hcontains, Hname, Hidx, Hchild, Hatoi. cbn [bind fst].
  rewrite Hkind, Kind_eqb_refl. cbn [negb orb].
  replace (Z.of_nat (List.length (Content child)) <=? Z.of_nat i) with false
    by (symmetry; apply Z.leb_gt; lia).
  unfold at_index.
  replace (Z.of_nat i <? 0) with false by (symmetry; apply Z.ltb_ge; lia).
  rewrite Nat2Z.id, Hitem. reflexivity.
Qed.

Lemma index_selects_item_witness :
  findNodeByPath (encode items_xy) "items[1]" = Done (Found (encode (Scalar "y"))).
Proof.
  apply (index_selects_item (encode items_xy) (encode items_xy)
           (encode (Sequence [Scalar "x"; Scalar "y"])) (encode (Scalar "y"))
           "items[1]" [] [] "items" 1);
    try reflexivity.
  vm_compute. discriminate.
Defined.

(** X13. A key that is missing stops the navigation with an error, whatever
    follows in the path. For a part without a bracket, when the node
    reached is not a mapping or has no entry with that key, the error is
    ["invalid format: <entrypoint>"] with the whole path; for a part
    [name[index]] it is ["key <name> not found"]. *)
Theorem missing_key_errors (node current : Node) (entrypoint : string)
  (before after : list string) (part : string)
  (Hparts : strings.Split entrypoint "." = (before ++ part :: after)%list)
  (Hbefore : findNodeByPath_loop entrypoint node before = Done (Found current)) :
  (strings.Contains part "[" = false ->
   getMapValue current part = Done None ->
   findNodeByPath node entrypoint
   = Done (Failed ("invalid format: " ++ entrypoint)))
  /\ (forall name indexString,
        part = name ++ "[" ++ indexString ++ "]" ->
        strings.Contains name "[" = false ->
        strings.Contains name "]" = false ->
        strings.Contains indexString "]" = false ->
        getMapValue current name = Done None ->
        findNodeByPath node entrypoint
        = Done (Failed ("key " ++ name ++ " not found"))).
Proof.
  unfold findNodeByPath. rewrite Hparts.
  rewrite (findNodeByPath_loop_app _ _ _ _ _ Hbefore).
  cbn [findNodeByPath_loop]. unfold findNodeByPath_part. split.
  - intros Hplain Hnil. rewrite Hplain, Hnil. reflexivity.
  - intros name indexString -> Hopen Hclose Hindex Hnil.
    destruct (bracket_part name indexString Hopen Hclose Hindex)
      as [Hcontains [Hname Hidx]].
    rewrite Hcontains, Hname, Hidx, Hnil. reflexivity.
Qed.

Lemma missing_key_errors_witness :
  findNodeByPath (encode pod) "spec.volumes.name"
  = Done (Failed "invalid format: spec.volumes.name")
  /\ findNodeByPath (encode pod) "spec.volumes[0].name"
     = Done (Failed "key volumes not found").
Proof.
  split.
  - destruct (missing_key_errors (encode pod)
                (encode (Mapping [("containers", containers)]))
                "spec.volumes.name" ["spec"] ["name"] "volumes"
                eq_refl eq_refl) as [Hplain _].
    apply Hplain; reflexivity.
  - destruct (missing_key_errors (encode pod)
                (encode (Mapping [("containers", containers)]))
                "spec.volumes[0].name" ["spec"] ["name"] "volumes[0]"
                eq_refl eq_refl) as [_ Hbracket].
    apply (Hbracket "volumes" "0"); reflexivity.
Defined.

(** ** The resource argument *)

Lemma Split_without_separator (s : string) (sep : ascii) :
  strings.Contains s sep = false -> strings.Split s sep = [s].
Proof.
  induction s as [|a s IH]; intro H; [reflexivity|].
  rewrite Contains_cons in H. apply orb_false_iff in H. destruct H as [Ha Hs].
  cbn [strings.Split]. rewrite Ha, (IH Hs). reflexivity.
Qed.

Lemma Split_parts_without_separator (s : string) (sep : ascii) :
  Forall (fun part => strings.Contains part sep = false) (strings.Split s sep).
Proof.
  induction s as [|a s IH]; [repeat constructor|].
  cbn [strings.Split]. destruct (Ascii.eqb a sep) eqn:E.
  - constructor; [reflexivity | exact IH].
  - destruct (strings.Split s sep) as [|h t].
    + repeat constructor. rewrite Contains_cons, E. reflexivity.
    + inversion IH as [|? ? Hh Ht]; subst. constructor; [|exact Ht].
      rewrite Contains_cons, E, Hh. reflexivity.
Qed.

(** X14. [parseResourceArg] accepts exactly the arguments with one slash: it
    returns a nil error if and only if the argument is [kind/name] with
    no slash in [kind] nor in [name], and then it returns the resolved
    kind and the name as typed; otherwise it returns two empty strings
    and the error ["invalid resource format, expected kind/name"]. *)
Theorem parseResourceArg_one_slash (ToLower : string -> string) (arg : string) :
  (forall kind name,
     strings.Contains kind "/" = false ->
     strings.Contains name "/" = false ->
     arg = kind ++ "/" ++ name ->
     parseResourceArg ToLower arg = (resolveKind_arg ToLower kind, name, None))
  /\ (forall resolved name,
        parseResourceArg ToLower arg = (resolved, name, None) ->
        exists kind,
          arg = kind ++ "/" ++ name
          /\ resolved = resolveKind_arg ToLower kind
          /\ strings.Contains kind "/" = false
          /\ strings.Contains name "/" = false)
  /\ (forall resolved name err,
        parseResourceArg ToLower arg = (resolved, name, Some err) ->
        resolved = "" /\ name = ""
        /\ err = "invalid resource format, expected kind/name").
Proof.
  unfold parseResourceArg. split; [|split].
  - intros kind name Hkind Hname ->.
    change (kind ++ "/" ++ name) with (kind ++ String "/" name).
    rewrite Split_append, !Split_without_separator by assumption.
    reflexivity.
  - intros resolved name H.
    pose proof (Join_Split arg "/") as Hjoin.
    pose proof (Split_parts_without_separator arg "/") as Hparts.
    destruct (strings.Split arg "/") as [|kind [|name' [|? ?]]];
      try discriminate.
    injection H as <- <-. exists kind.
    inversion Hparts as [|? ? Hkind Hrest]; subst.
    inversion Hrest as [|? ? Hname _]; subst.
    repeat split; assumption.
  - intros resolved name err H.
    destruct (strings.Split arg "/") as [|kind [|name' [|? ?]]];
      try discriminate; injection H as <- <- <-; repeat split.
Qed.

Lemma parseResourceArg_one_slash_witness :
  parseResourceArg fold_case "Pods/web" = ("pod", "web", None).
Proof.
  destruct (parseResourceArg_one_slash fold_case "Pods/web") as [H _].
  apply (H "Pods" "web"); reflexivity.
Defined.


